(** * tx-parser-svc: the block-ingestion step and the in-memory store

    A shallow embedding of [internal/txparser]: the [MemoryStore], the hex
    height parsing of [parser.go], [parseTransactions], [storeTransactions],
    [processNextBlock] and [StartParsing], followed by the properties the
    specification states about them.

    Conventions.
    - Go's [int] and [int64] are 64-bit two's complement integers, embedded
      in [Z]; the one addition of the ingestion step is written with its
      wrap-around ([wrap_int64]).
    - Go strings are byte strings: [string] with one [ascii] per byte.
    - A Go result pair [(v, err)] is a pair [(v, option error)], [None]
      being [nil].
    - A Go [map[string]T] is a [gmap string T]; reading a missing key yields
      the zero value of [T], written out with [default]. *)

From Stdlib Require Import ZArith Ascii String List Bool Lia.
From stdpp Require Import base option list gmap strings fin_maps.

Local Open Scope string_scope.
Local Open Scope list_scope.
Local Open Scope Z_scope.

(** ** Errors *)

(** The error values the ingestion step can see: the two [strconv] errors,
    an error reported by the chain client, and [fmt.Errorf("...: %w", err)]
    wrapping. *)
Inductive error : Type :=
| ErrSyntax
| ErrRange
| ErrBase
| ErrClient (msg : string)
| Errorf (context : string) (cause : error).

(** ** Machine integers *)

Module Int64.

Definition min_int64 : Z := - 2 ^ 63.
Definition max_int64 : Z := 2 ^ 63 - 1.
Definition maxUint64 : Z := 2 ^ 64 - 1.

Definition in_range (z : Z) : Prop := min_int64 <= z <= max_int64.

(** Two's complement reduction of an integer to 64 bits. *)
Definition wrap_int64 (z : Z) : Z := (z + 2 ^ 63) mod 2 ^ 64 - 2 ^ 63.

(** Reduction to an unsigned 64-bit word. *)
Definition wrap_uint64 (z : Z) : Z := z mod 2 ^ 64.

End Int64.

(** ** [strconv.ParseInt], as the Go standard library defines it *)

Module strconv.

Import Int64.

Definition byte_of (c : ascii) : Z := Z.of_N (N_of_ascii c).

(** [lower(c) = c | ('x' - 'X')]. *)
Definition lower (c : Z) : Z := Z.lor c 32.

Inductive digit_result : Type :=
| Digit (d : Z)
| NotADigit.

(** The [switch] of the digit loop, for a base given explicitly (the
    underscore case belongs to base 0 only). *)
Definition digit_value (c : Z) : digit_result :=
  if (48 <=? c) && (c <=? 57) then Digit (c - 48)
  else if (97 <=? lower c) && (lower c <=? 122) then Digit (lower c - 97 + 10)
  else NotADigit.

(** The digit loop of [ParseUint], with accumulator [n]. *)
Fixpoint parse_digits (base cutoff maxVal : Z) (n : Z) (s : list ascii)
  : Z * option error :=
  match s with
  | [] => (n, None)
  | c :: s' =>
      match digit_value (byte_of c) with
      | NotADigit => (0, Some ErrSyntax)
      | Digit d =>
          if base <=? d then (0, Some ErrSyntax)
          else if cutoff <=? n then (maxVal, Some ErrRange)
          else
            let n0 := wrap_uint64 (n * base) in
            let n1 := wrap_uint64 (n0 + d) in
            if (n1 <? n0) || (maxVal <? n1) then (maxVal, Some ErrRange)
            else parse_digits base cutoff maxVal n1 s'
      end
  end.

(** [ParseUint(s, base, bitSize)] for [2 <= base <= 36]; base 0 (prefix
    detection) is not used by this program and any other base is
    rejected. *)
Definition ParseUint (s : string) (base bitSize : Z) : Z * option error :=
  if String.eqb s EmptyString then (0, Some ErrSyntax)
  else if (2 <=? base) && (base <=? 36) then
    let cutoff := maxUint64 / base + 1 in
    let maxVal := 2 ^ bitSize - 1 in
    parse_digits base cutoff maxVal 0 (list_ascii_of_string s)
  else (0, Some ErrBase).

Definition is_ErrRange (e : error) : bool :=
  match e with ErrRange => true | _ => false end.

(** [ParseInt(s, base, bitSize)]: an optional sign, then [ParseUint] and
    the signed range check; an error of [ParseUint] other than a range
    error is returned at once. *)
Definition ParseInt (s : string) (base bitSize : Z) : Z * option error :=
  match s with
  | EmptyString => (0, Some ErrSyntax)
  | String c0 rest =>
      let '(neg, s1) :=
        if Ascii.eqb c0 "+"%char then (false, rest)
        else if Ascii.eqb c0 "-"%char then (true, rest)
        else (false, s) in
      let '(un, err) := ParseUint s1 base bitSize in
      if match err with Some e => negb (is_ErrRange e) | None => false end
      then (0, err)
      else
        let cutoff := 2 ^ (bitSize - 1) in
        if negb neg && (cutoff <=? un) then (cutoff - 1, Some ErrRange)
        else if neg && (cutoff <? un) then (- cutoff, Some ErrRange)
        else (if neg then - un else un, None)
  end.

End strconv.

(** ** Data model *)

(** [Transaction] (the internal representation of a transaction). *)
Module Transaction.
Record t : Type := mk
  { Hash : string; From : string; To : string; Value : string; Block : Z }.

(** The zero value of the struct, which [make] fills a new slice with. *)
Definition zero : t := mk EmptyString EmptyString EmptyString EmptyString 0.
End Transaction.

(** [RawTx], a transaction as the chain client decodes it. *)
Module RawTx.
Record t : Type := mk
  { Hash : string; From : string; To : string; Value : string }.
End RawTx.

(** [BlockResponse] with its anonymous [Result] struct. *)
Module BlockResponse.
Record result : Type := mk_result
  { Number : string; Hash : string; Transactions : list RawTx.t }.
Record t : Type := mk
  { Jsonrpc : string; ID : Z; Result : result }.

Definition zero : t := mk EmptyString 0 (mk_result EmptyString EmptyString []).
End BlockResponse.

(** ** Hex heights ([parser.go]) *)

(** [len(h) > 2 && h[:2] == "0x"] followed by [h = h[2:]]. *)
Definition strip_0x (h : string) : string :=
  if (2 <? Z.of_nat (String.length h)) && String.eqb (String.substring 0 2 h) "0x"
  then String.substring 2 (String.length h - 2) h
  else h.

Definition hexToInt64 (h : string) : Z * option error :=
  let h := strip_0x h in
  let '(val, err) := strconv.ParseInt h 16 64 in
  match err with
  | Some e => (0, Some e)
  | None => (val, None)
  end.

Definition hexToInt64OrZero (h : string) : Z := fst (hexToInt64 h).

(** ** The in-memory store *)

(** [MemoryStore] without its lock: the operations below are the critical
    sections, each run as a whole. *)
Record MemoryStore : Type := mkStore
  { CurrentBlock : Z;
    subscribed : gmap string bool;
    transactions : gmap string (list Transaction.t) }.

(** [m.subscribed[address]]: a missing key reads as [false]. *)
Definition subscribed_at (m : MemoryStore) (address : string) : bool :=
  default false (subscribed m !! address).

(** [m.transactions[address]] in an expression: a missing key reads as the
    nil slice. *)
Definition transactions_at (m : MemoryStore) (address : string)
  : list Transaction.t :=
  default [] (transactions m !! address).

Definition GetCurrentBlock (m : MemoryStore) : Z := CurrentBlock m.

Definition SetCurrentBlock (m : MemoryStore) (block : Z) : MemoryStore :=
  mkStore block (subscribed m) (transactions m).

Definition NewMemoryStore : MemoryStore := mkStore 0 ∅ ∅.

Definition Subscribe (m : MemoryStore) (address : string)
  : bool * MemoryStore :=
  if subscribed_at m address then (false, m)
  else
    (true,
     mkStore (CurrentBlock m)
             (<[address := true]> (subscribed m))
             (<[address := []]> (transactions m))).

Definition IsSubscribed (m : MemoryStore) (address : string) : bool :=
  subscribed_at m address.

Definition AddTransaction (m : MemoryStore) (address : string)
  (tx : Transaction.t) : MemoryStore :=
  if subscribed_at m address then
    mkStore (CurrentBlock m) (subscribed m)
            (<[address := transactions_at m address ++ [tx]]> (transactions m))
  else m.

(** [make([]Transaction, n)] and [copy(dst, src)] on slice contents: [copy]
    overwrites the first [min (len dst) (len src)] elements of [dst]. *)
Definition make_slice (n : nat) : list Transaction.t :=
  replicate n Transaction.zero.

Definition copy_slice (dst src : list Transaction.t) : list Transaction.t :=
  let k := Nat.min (length dst) (length src) in
  take k src ++ drop k dst.

Definition GetTransactions (m : MemoryStore) (address : string)
  : list Transaction.t :=
  match transactions m !! address with
  | None => []
  | Some txs =>
      let cp := make_slice (length txs) in
      copy_slice cp txs
  end.

(** ** The chain client *)

(** The [JSONRPCClient] interface.  A client is a value of some type [C]
    holding whatever the implementation keeps (for the production client:
    the node it talks to); each call returns the answer together with the
    client afterwards, so that two calls need not agree. *)
Class JSONRPCClient (C : Type) : Type :=
  { BlockNumber : C -> C * (string * option error);
    GetBlockByNumber : C -> Z -> C * (BlockResponse.t * option error) }.

(** The calls a step makes to the client, in order, with their answers. *)
Inductive rpc_call : Type :=
| CallBlockNumber (answer : string * option error)
| CallGetBlockByNumber (blockNum : Z) (answer : BlockResponse.t * option error).

(** ** The parser *)

(** [parseTransactions]: one [Transaction] appended per raw transaction of
    the block. *)
Definition parseTransactions (block : BlockResponse.t) : list Transaction.t :=
  fold_left
    (fun txs tx =>
       txs ++ [Transaction.mk (RawTx.Hash tx) (RawTx.From tx) (RawTx.To tx)
                 (RawTx.Value tx)
                 (hexToInt64OrZero
                    (BlockResponse.Number (BlockResponse.Result block)))])
    (BlockResponse.Transactions (BlockResponse.Result block))
    [].

(** One iteration of the loop of [storeTransactions]. *)
Definition storeTransaction (m : MemoryStore) (tx : Transaction.t)
  : MemoryStore :=
  let m1 :=
    if IsSubscribed m (Transaction.From tx)
    then AddTransaction m (Transaction.From tx) tx else m in
  if IsSubscribed m1 (Transaction.To tx)
  then AddTransaction m1 (Transaction.To tx) tx else m1.

Definition storeTransactions (m : MemoryStore) (txs : list Transaction.t)
  : MemoryStore :=
  fold_left storeTransaction txs m.

Section Parser.

Context {C : Type} `{JSONRPCClient C}.

(** [EthParser] without its logger and lock. *)
Record EthParser : Type := mkParser
  { client : C;
    store : MemoryStore;
    parseRunning : bool }.

(** What a call of [processNextBlock] leaves behind: the returned error,
    the parser afterwards and the client calls it made. *)
Record step_result : Type := mkStep
  { step_err : option error;
    step_parser : EthParser;
    step_calls : list rpc_call }.

Definition processNextBlock (p : EthParser) : step_result :=
  let currentBlock := GetCurrentBlock (store p) in
  let '(c1, (latestBlockHex, err)) := BlockNumber (client p) in
  let p1 := mkParser c1 (store p) (parseRunning p) in
  let calls1 := [CallBlockNumber (latestBlockHex, err)] in
  match err with
  | Some e => mkStep (Some (Errorf "failed to get block number" e)) p1 calls1
  | None =>
      let '(latestBlockDecimal, err) := hexToInt64 latestBlockHex in
      match err with
      | Some e =>
          mkStep (Some (Errorf "failed converting block hex to int64" e))
                 p1 calls1
      | None =>
          if latestBlockDecimal <=? currentBlock then mkStep None p1 calls1
          else
            let nextBlock := Int64.wrap_int64 (currentBlock + 1) in
            let '(c2, (blockData, err)) := GetBlockByNumber c1 nextBlock in
            let p2 := mkParser c2 (store p) (parseRunning p) in
            let calls2 :=
              calls1 ++ [CallGetBlockByNumber nextBlock (blockData, err)] in
            match err with
            | Some e =>
                mkStep (Some (Errorf "failed to fetch block data for block" e))
                       p2 calls2
            | None =>
                let transactions := parseTransactions blockData in
                let m := storeTransactions (store p) transactions in
                mkStep None
                       (mkParser c2 (SetCurrentBlock m nextBlock)
                                 (parseRunning p))
                       calls2
            end
      end
  end.

(** The loop of [StartParsing] for a context that is seen cancelled after
    [n] iterations; the error of an iteration is logged and dropped. *)
Fixpoint parser_loop (n : nat) (p : EthParser) : EthParser :=
  match n with
  | O => p
  | S n' => parser_loop n' (step_parser (processNextBlock p))
  end.

(** [StartParsing].  The context is the number of iterations after which
    [ctx.Done()] is first seen, or [None] for a context that is never
    cancelled; the result is the parser when the call returns, and [None]
    when it does not return. *)
Definition StartParsing (p : EthParser) (ctx : option nat)
  : option EthParser :=
  if parseRunning p then Some p
  else
    let p := mkParser (client p) (store p) true in
    match ctx with
    | Some n => Some (parser_loop n p)
    | None => None
    end.

(** The pass-through methods of the [Parser] interface. *)
Definition Parser_Subscribe (p : EthParser) (address : string)
  : bool * EthParser :=
  let '(b, m) := Subscribe (store p) address in
  (b, mkParser (client p) m (parseRunning p)).

Definition Parser_GetTransactions (p : EthParser) (address : string)
  : list Transaction.t :=
  GetTransactions (store p) address.

Definition Parser_GetCurrentBlock (p : EthParser) : Z :=
  GetCurrentBlock (store p).

Definition NewEthParser (c : C) (m : MemoryStore) : EthParser :=
  mkParser c m false.

(** The calls of the [Parser] interface and of the loop body. *)
Inductive parser_op : Type :=
| PSubscribe (address : string)
| PGetTransactions (address : string)
| PGetCurrentBlock
| PProcessNextBlock
| PStartParsing (ctx : option nat).

(** The parser after a call that returns; [None] for a call that does
    not. *)
Definition apply_parser_op (p : EthParser) (o : parser_op)
  : option EthParser :=
  match o with
  | PSubscribe a => Some (snd (Parser_Subscribe p a))
  | PGetTransactions _ | PGetCurrentBlock => Some p
  | PProcessNextBlock => Some (step_parser (processNextBlock p))
  | PStartParsing ctx => StartParsing p ctx
  end.

Fixpoint run_parser_ops (p : EthParser) (ops : list parser_op)
  : option EthParser :=
  match ops with
  | [] => Some p
  | o :: ops' =>
      match apply_parser_op p o with
      | Some p' => run_parser_ops p' ops'
      | None => None
      end
  end.

End Parser.

Arguments EthParser C : clear implicits.
Arguments step_result C : clear implicits.

(** ** The test double of [parser_test.go] *)

Record mockClient : Type := mkMock
  { latestBlock : string;
    blocks : gmap Z BlockResponse.t }.

#[export] Instance mockClient_JSONRPCClient : JSONRPCClient mockClient :=
  { BlockNumber m := (m, (latestBlock m, None));
    GetBlockByNumber m blockNum :=
      (m, (default BlockResponse.zero (blocks m !! blockNum), None)) }.

(** The fixture of [TestParser]. *)
Definition fixture_block (number hash : string) (txs : list RawTx.t)
  : BlockResponse.t :=
  BlockResponse.mk EmptyString 0 (BlockResponse.mk_result number hash txs).

Definition mc : mockClient :=
  mkMock "0x3"
    (<[1 := fixture_block "0x1" "0xblock1"
              [RawTx.mk "0xtx1" "0xABCDEF" "0x123" "0x10";
               RawTx.mk "0xtx2" "0x555" "0x666" "0x20"]]>
     (<[2 := fixture_block "0x2" "0xblock2"
              [RawTx.mk "0xtx3" "0x123" "0xABCDEF" "0x15"]]>
      (<[3 := fixture_block "0x3" "0xblock3" []]> ∅))).

(** The characters [0-9a-fA-F]. *)
Definition is_hex_digit (c : ascii) : bool :=
  let b := strconv.byte_of c in
  ((48 <=? b) && (b <=? 57)) || ((97 <=? b) && (b <=? 102))
  || ((65 <=? b) && (b <=? 70)).

Definition hex_digits (s : string) : bool :=
  forallb is_hex_digit (list_ascii_of_string s).

(** The height [parseTransactions] stamps on every transaction of a block
    whose self-reported number is [number]. *)
Definition block_height (number : string) : Z :=
  match hexToInt64 number with
  | (v, None) => v
  | (_, Some _) => 0
  end.

(** The calls of the [Store] interface. *)
Inductive store_op : Type :=
| OpSubscribe (address : string)
| OpIsSubscribed (address : string)
| OpAddTransaction (address : string) (tx : Transaction.t)
| OpGetTransactions (address : string)
| OpSetCurrentBlock (block : Z)
| OpGetCurrentBlock.

(** The store after a call (the value the call returns is dropped). *)
Definition apply_op (m : MemoryStore) (o : store_op) : MemoryStore :=
  match o with
  | OpSubscribe a => snd (Subscribe m a)
  | OpAddTransaction a tx => AddTransaction m a tx
  | OpSetCurrentBlock b => SetCurrentBlock m b
  | OpIsSubscribed _ | OpGetTransactions _ | OpGetCurrentBlock => m
  end.

Definition run_ops (m : MemoryStore) (ops : list store_op) : MemoryStore :=
  fold_left apply_op ops m.

(** A sequence exists only for a subscribed address. *)
Definition sequences_subscribed (m : MemoryStore) : Prop :=
  forall a, subscribed_at m a = false -> transactions m !! a = None.

(** What one transaction adds to the sequence of address [a]: itself once
    for each of its two ends that is [a], when [a] is subscribed. *)
Definition recorded_for (m : MemoryStore) (a : string) (tx : Transaction.t)
  : list Transaction.t :=
  (if subscribed_at m (Transaction.From tx)
      && String.eqb (Transaction.From tx) a then [tx] else []) ++
  (if subscribed_at m (Transaction.To tx)
      && String.eqb (Transaction.To tx) a then [tx] else []).

(** The stores the service can reach: a new store, then subscriptions and
    ingestion steps against any client. *)
Inductive ingested : MemoryStore -> Prop :=
| ingested_new : ingested NewMemoryStore
| ingested_subscribe m a :
    ingested m -> ingested (snd (Subscribe m a))
| ingested_step {C : Type} `{JSONRPCClient C} (p : EthParser C) :
    ingested (store p) ->
    ingested (store (step_parser (processNextBlock p))).

(** Every stored transaction has the address it is stored under as its
    sender or its recipient. *)
Definition parties_only (m : MemoryStore) : Prop :=
  forall a tx, In tx (transactions_at m a) ->
               a = Transaction.From tx \/ a = Transaction.To tx.

(** The transactions and the parser of [TestParser]: "0x123" subscribed on
    a new store, then [n] steps. *)
Definition tx1 : Transaction.t :=
  Transaction.mk "0xtx1" "0xABCDEF" "0x123" "0x10" 1.
Definition tx2 : Transaction.t :=
  Transaction.mk "0xtx2" "0x555" "0x666" "0x20" 1.
Definition tx3 : Transaction.t :=
  Transaction.mk "0xtx3" "0x123" "0xABCDEF" "0x15" 2.

Definition fixture_start : EthParser mockClient :=
  snd (Parser_Subscribe (NewEthParser mc NewMemoryStore) "0x123").

Definition fixture_after (n : nat) : EthParser mockClient :=
  Nat.iter n (fun p => step_parser (processNextBlock p)) fixture_start.

(** A client double with fixed answers, for steps that fail. *)
Record stubClient : Type := mkStub
  { stub_tip : string * option error;
    stub_block : Z -> BlockResponse.t * option error }.

#[export] Instance stubClient_JSONRPCClient : JSONRPCClient stubClient :=
  { BlockNumber m := (m, stub_tip m);
    GetBlockByNumber m blockNum := (m, stub_block m blockNum) }.

(** A node that reports height 3 and times out on every block. *)
Definition timing_out : stubClient :=
  mkStub ("0x3", None)
         (fun _ => (BlockResponse.zero, Some (ErrClient "timeout"))).

(** ** Slices and their backing arrays *)

(** The store once more, with Go's slices written out: a slice is a header
    (backing array, length, capacity) and the arrays live in a heap, so that
    two headers can share an array and a write through one is seen through
    the other.  This is the level at which "the caller gets a copy" can be
    said; [abstract] below relates it to [MemoryStore]. *)
Module Slices.

Record slice : Type := mkSlice { ptr : positive; len : nat; cap : nat }.

Record state : Type := mkState
  { heap : gmap positive (list Transaction.t);
    cursor : Z;
    watched : gmap string bool;
    sequences : gmap string slice }.

(** The address every zero-sized allocation gets; nothing is stored
    there. *)
Definition zerobase : positive := 1%positive.

Definition nil_slice : slice := mkSlice zerobase 0 0.

Definition array_at (h : gmap positive (list Transaction.t)) (l : positive)
  : list Transaction.t :=
  default [] (h !! l).

(** The elements a slice shows. *)
Definition contents (h : gmap positive (list Transaction.t)) (s : slice)
  : list Transaction.t :=
  take (len s) (array_at h (ptr s)).

(** A new array of [n] zero values, at an address not in use. *)
Definition alloc (h : gmap positive (list Transaction.t)) (n : nat)
  : gmap positive (list Transaction.t) * positive :=
  let l := fresh ({[zerobase]} ∪ dom h) in
  (<[l := replicate n Transaction.zero]> h, l).

(** [make([]Transaction, n)]; also the literal [[]Transaction{}] for
    [n = 0]. *)
Definition make (h : gmap positive (list Transaction.t)) (n : nat)
  : gmap positive (list Transaction.t) * slice :=
  match n with
  | O => (h, mkSlice zerobase 0 0)
  | S _ => let '(h', l) := alloc h n in (h', mkSlice l n n)
  end.

(** [copy(dst, src)]: the first [min (len dst) (len src)] elements of
    [dst]'s array are overwritten. *)
Definition copy (h : gmap positive (list Transaction.t)) (dst src : slice)
  : gmap positive (list Transaction.t) :=
  let k := Nat.min (len dst) (len src) in
  match k with
  | O => h
  | S _ =>
      <[ptr dst := take k (contents h src) ++ drop k (array_at h (ptr dst))]> h
  end.

(** [s[i] = x] for [i < len s] (an index out of range panics: no write). *)
Definition write (h : gmap positive (list Transaction.t)) (s : slice)
  (i : nat) (x : Transaction.t) : gmap positive (list Transaction.t) :=
  if (i <? len s)%nat then <[ptr s := <[i := x]> (array_at h (ptr s))]> h
  else h.

Definition Subscribe (st : state) (address : string) : bool * state :=
  if default false (watched st !! address) then (false, st)
  else
    let '(h, s) := make (heap st) 0 in
    (true,
     mkState h (cursor st) (<[address := true]> (watched st))
             (<[address := s]> (sequences st))).

Definition SetCurrentBlock (st : state) (block : Z) : state :=
  mkState (heap st) block (watched st) (sequences st).

Section Growth.

(** The capacity the runtime picks when [append] has to reallocate, from
    the old capacity and the length needed. *)
Variable growslice : nat -> nat -> nat.

(** [append(s, x)]: in place while the capacity lasts, into a new array
    otherwise. *)
Definition append (h : gmap positive (list Transaction.t)) (s : slice)
  (x : Transaction.t) : gmap positive (list Transaction.t) * slice :=
  if (len s <? cap s)%nat then
    (<[ptr s := <[len s := x]> (array_at h (ptr s))]> h,
     mkSlice (ptr s) (S (len s)) (cap s))
  else
    let newcap := growslice (cap s) (S (len s)) in
    let '(h1, l) := alloc h newcap in
    (<[l := contents h s ++ [x] ++ drop (S (len s)) (array_at h1 l)]> h1,
     mkSlice l (S (len s)) newcap).

Definition AddTransaction (st : state) (address : string)
  (tx : Transaction.t) : state :=
  if default false (watched st !! address) then
    let s := default nil_slice (sequences st !! address) in
    let '(h, s') := append (heap st) s tx in
    mkState h (cursor st) (watched st) (<[address := s']> (sequences st))
  else st.

End Growth.

(** [GetTransactions]: the heap afterwards and the slice returned. *)
Definition GetTransactions (st : state) (address : string)
  : gmap positive (list Transaction.t) * slice :=
  match sequences st !! address with
  | None => make (heap st) 0
  | Some txs =>
      let '(h, cp) := make (heap st) (len txs) in
      (copy h cp txs, cp)
  end.

Definition NewMemoryStore : state := mkState ∅ 0 ∅ ∅.

Definition with_heap (st : state) (h : gmap positive (list Transaction.t))
  : state :=
  mkState h (cursor st) (watched st) (sequences st).

(** The store a state stands for. *)
Definition abstract (st : state) : MemoryStore :=
  mkStore (cursor st) (watched st) (contents (heap st) <$> sequences st).

(** Each stored slice with room in it has an array of its capacity, of its
    own; the zero address holds nothing. *)
Record store_ok (st : state) : Prop := mkOk
  { ok_zerobase : heap st !! zerobase = None;
    ok_len : forall a s, sequences st !! a = Some s -> (len s <= cap s)%nat;
    ok_array : forall a s, sequences st !! a = Some s -> (0 < cap s)%nat ->
               exists arr, heap st !! ptr s = Some arr /\ length arr = cap s;
    ok_separate : forall a b s t,
        a <> b -> sequences st !! a = Some s -> sequences st !! b = Some t ->
        (0 < cap s)%nat -> (0 < cap t)%nat -> ptr s <> ptr t }.

(** What a caller holding slice [s] can do to the heap: change the array
    of [s] (and allocate); every other array in use stays as it is. *)
Definition mutated_through (s : slice)
  (h h' : gmap positive (list Transaction.t)) : Prop :=
  h' !! zerobase = None /\
  forall l arr, h !! l = Some arr -> l <> ptr s -> h' !! l = Some arr.

End Slices.

(** The slice-level store after a sequence of calls ([GetTransactions]
    leaves its copy in the heap). *)
Definition slices_apply_op (growslice : nat -> nat -> nat)
  (st : Slices.state) (o : store_op) : Slices.state :=
  match o with
  | OpSubscribe a => snd (Slices.Subscribe st a)
  | OpAddTransaction a tx => Slices.AddTransaction growslice st a tx
  | OpSetCurrentBlock b => Slices.SetCurrentBlock st b
  | OpGetTransactions a =>
      Slices.with_heap st (fst (Slices.GetTransactions st a))
  | OpIsSubscribed _ | OpGetCurrentBlock => st
  end.

Definition slices_run_ops (growslice : nat -> nat -> nat)
  (st : Slices.state) (ops : list store_op) : Slices.state :=
  fold_left (slices_apply_op growslice) ops st.

(** Growth by doubling, as the runtime does for short slices. *)
Definition doubling (c n : nat) : nat := Nat.max n (2 * c).

(** The slice-level store of the fixture: "0x123" subscribed, [tx1] and
    [tx3] recorded. *)
Definition copy_fixture : Slices.state :=
  slices_run_ops doubling Slices.NewMemoryStore
    [OpSubscribe "0x123"; OpAddTransaction "0x123" tx1;
     OpAddTransaction "0x123" tx3].

(** ** Requests to the node ([json_rpc_client.go]) *)

(** [fmt.Sprintf("%x", n)] for an [int64]: a minus sign for a negative
    number, then the digits of the magnitude, most significant first,
    written from the right as the runtime's loop does. *)
Module fmt.

Definition ldigits : string := "0123456789abcdefx".

(** [digits[d]]. *)
Definition digit_char (d : Z) : ascii :=
  match String.get (Z.to_nat d) ldigits with
  | Some c => c
  | None => "0"%char
  end.

(** [for u >= 16 { buf[i] = digits[u&0xF]; u >>= 4 }; buf[i] = digits[u]]:
    at most sixteen digits for a 64-bit word. *)
Fixpoint hex_loop (fuel : nat) (u : Z) (buf : list ascii) : list ascii :=
  match fuel with
  | O => buf
  | S fuel' =>
      if 16 <=? u
      then hex_loop fuel' (Z.shiftr u 4) (digit_char (Z.land u 15) :: buf)
      else digit_char u :: buf
  end.

Definition hex_digits_of (u : Z) : list ascii := hex_loop 16 u [].

Definition Sprintf_x (n : Z) : string :=
  let negative := n <? 0 in
  let u := Int64.wrap_uint64 (if negative then - n else n) in
  let digits := hex_digits_of u in
  string_of_list_ascii (if negative then "-"%char :: digits else digits).

End fmt.

(** [hexBlockNum := fmt.Sprintf("0x%x", blockNum)]. *)
Definition hexBlockNum (blockNum : Z) : string :=
  "0x" ++ fmt.Sprintf_x blockNum.

(** The number a hex digit stands for (0 for any other character). *)
Definition hex_digit_value (c : ascii) : Z :=
  let b := strconv.byte_of c in
  if (48 <=? b) && (b <=? 57) then b - 48
  else if (97 <=? b) && (b <=? 102) then b - 87
  else if (65 <=? b) && (b <=? 70) then b - 55
  else 0.

(** The number a string of hex digits denotes, read from the left with
    [n] already read. *)
Definition hex_value_from (n : Z) (s : list ascii) : Z :=
  fold_left (fun n c => n * 16 + hex_digit_value c) s n.

Definition hex_value (s : string) : Z :=
  hex_value_from 0 (list_ascii_of_string s).

(** The copies of a block's transactions that belong in the list of
    address [a]: each transaction once for a sender equal to [a] and once
    for a recipient equal to [a], in block order. *)
Definition matching (a : string) (txs : list Transaction.t)
  : list Transaction.t :=
  flat_map (fun tx =>
              (if String.eqb (Transaction.From tx) a then [tx] else []) ++
              (if String.eqb (Transaction.To tx) a then [tx] else []))
           txs.

(** ** The production client ([json_rpc_client.go]) *)

Module rpc.

(** An element of [Params []interface{}]: the client puts in strings and
    booleans only. *)
Inductive param : Type :=
| PString (s : string)
| PBool (b : bool).

Record rpcRequest : Type := mkRequest
  { JSONRPC : string; Method : string; Params : list param; ID : Z }.

Record rpcError : Type := mkError { Code : Z; Message : string }.

Record rpcResponseBlockNumber : Type := mkResponseBlockNumber
  { rID : Z; rJSONRPC : string; Result : string; Error : option rpcError }.

(** What [r.client.Do(req)] gives: a transport error, or a response with
    its status code and what [buf.ReadFrom(resp.Body)] makes of its body. *)
Inductive exchange : Type :=
| DoFailed (e : error)
| Responded (StatusCode : Z) (read : string * option error).

(** What the client takes from outside the repository: the JSON codec for
    the three types it encodes and decodes, [http.NewRequest] (its error
    only), and the node, which answers the [n]-th request sent according to
    endpoint and payload. *)
Class Env : Type :=
  { json_Marshal : rpcRequest -> string * option error;
    http_NewRequest : string -> string -> string -> option error;
    network : nat -> string -> string -> exchange;
    json_Unmarshal_BlockNumber :
      string -> rpcResponseBlockNumber * option error;
    json_Unmarshal_Block : string -> BlockResponse.t * option error }.

(** [RPCClient]: the endpoint, and how many requests it has sent. *)
Record RPCClient : Type := mkClient { endpoint : string; sent : nat }.

Definition NewJSONRPCClient (endpoint : string) : RPCClient :=
  mkClient endpoint 0.

Section Client.

Context `{Env}.

Definition doRequest (r : RPCClient) (data : rpcRequest)
  : RPCClient * (string * option error) :=
  let '(payload, err) := json_Marshal data in
  match err with
  | Some e => (r, (EmptyString, Some (Errorf "json marshal failed" e)))
  | None =>
      match http_NewRequest "POST" (endpoint r) payload with
      | Some e => (r, (EmptyString, Some (Errorf "http.NewRequest error" e)))
      | None =>
          let r' := mkClient (endpoint r) (S (sent r)) in
          match network (sent r) (endpoint r) payload with
          | DoFailed e =>
              (r', (EmptyString, Some (Errorf "HTTP request error" e)))
          | Responded status (bytes, rerr) =>
              if (status <? 200) || (300 <=? status) then
                (r', (EmptyString, Some (ErrClient "unexpected status code")))
              else
                match rerr with
                | Some e =>
                    (r', (EmptyString,
                          Some (Errorf "reading response body failed" e)))
                | None => (r', (bytes, None))
                end
          end
      end
  end.

Definition BlockNumber_request : rpcRequest :=
  mkRequest "2.0" "eth_blockNumber" [] 1.

Definition RPC_BlockNumber (r : RPCClient)
  : RPCClient * (string * option error) :=
  let '(r', (respBody, err)) := doRequest r BlockNumber_request in
  match err with
  | Some e => (r', (EmptyString, Some e))
  | None =>
      let '(blockResp, err) := json_Unmarshal_BlockNumber respBody in
      match err with
      | Some e => (r', (EmptyString, Some e))
      | None =>
          match Error blockResp with
          | Some rpcErr =>
              (r', (EmptyString,
                    Some (ErrClient ("rpc error: " ++ Message rpcErr))))
          | None => (r', (Result blockResp, None))
          end
      end
  end.

Definition GetBlockByNumber_request (blockNum : Z) : rpcRequest :=
  mkRequest "2.0" "eth_getBlockByNumber"
            [PString (hexBlockNum blockNum); PBool true] 1.

Definition RPC_GetBlockByNumber (r : RPCClient) (blockNum : Z)
  : RPCClient * (BlockResponse.t * option error) :=
  let '(r', (respBody, err)) := doRequest r (GetBlockByNumber_request blockNum) in
  match err with
  | Some e =>
      (r', (BlockResponse.zero,
            Some (Errorf "GetBlockByNumber request failed" e)))
  | None =>
      let '(blockResp, err) := json_Unmarshal_Block respBody in
      match err with
      | Some e =>
          (r', (BlockResponse.zero,
                Some (Errorf "GetBlockByNumber unmarshal failed" e)))
      | None => (r', (blockResp, None))
      end
  end.

#[global] Instance RPCClient_JSONRPCClient : JSONRPCClient RPCClient :=
  { BlockNumber := RPC_BlockNumber;
    GetBlockByNumber := RPC_GetBlockByNumber }.

End Client.

End rpc.

(** ** The HTTP adapter ([http_server.go]) *)

Module http.

Definition StatusOK : Z := 200.
Definition StatusBadRequest : Z := 400.
Definition StatusMethodNotAllowed : Z := 405.
Definition MethodGet : string := "GET".
Definition MethodPost : string := "POST".

(** What the handlers read of a request. *)
Record Request : Type := mkRequest
  { Method : string; RawQuery : string; Body : string }.

(** The values the handlers hand to the JSON encoder. *)
Inductive payload : Type :=
| MapInt (m : gmap string Z)
| MapBool (m : gmap string bool)
| Transactions (txs : list Transaction.t).

Inductive body : Type :=
| Text (line : string)
| JSON (v : payload).

(** What a handler leaves in the [ResponseWriter]. *)
Record Response : Type := mkResponse
  { StatusCode : Z; ContentType : string; ResponseBody : body }.

(** [http.Error(w, msg, code)]. *)
Definition Error (msg : string) (code : Z) : Response :=
  mkResponse code "text/plain; charset=utf-8" (Text msg).

(** [url.Values.Get]: the first value of the key, or the empty string. *)
Definition Values_Get (v : gmap string (list string)) (key : string)
  : string :=
  match default [] (v !! key) with
  | [] => EmptyString
  | x :: _ => x
  end.

(** What the handlers take from the standard library: the JSON decoding of
    a body into [subReq] (its [Address], and the error), and the parsing of
    the query string. *)
Class Codec : Type :=
  { Decode_subReq : string -> string * option error;
    URL_Query : string -> gmap string (list string) }.

Section Handlers.

Context {C : Type} `{JSONRPCClient C} `{Codec}.

(** [writeJSON]; a failure of the encoder is logged only. *)
Definition writeJSON (status : Z) (v : payload) : Response :=
  mkResponse status "application/json" (JSON v).

Definition handleCurrentBlock (p : EthParser C) (r : Request) : Response :=
  if negb (String.eqb (Method r) MethodGet) then
    Error "only GET is allowed" StatusMethodNotAllowed
  else
    let block := Parser_GetCurrentBlock p in
    writeJSON StatusOK (MapInt {["currentBlock" := block]}).

Definition handleSubscribe (p : EthParser C) (r : Request)
  : EthParser C * Response :=
  if negb (String.eqb (Method r) MethodPost) then
    (p, Error "only POST is allowed" StatusMethodNotAllowed)
  else
    let '(address, err) := Decode_subReq (Body r) in
    match err with
    | Some _ => (p, Error "invalid JSON body" StatusBadRequest)
    | None =>
        if String.eqb address EmptyString then
          (p, Error "address is required" StatusBadRequest)
        else
          let '(subscribed, p') := Parser_Subscribe p address in
          (p', writeJSON StatusOK (MapBool {["subscribed" := subscribed]}))
    end.

Definition handleGetTransactions (p : EthParser C) (r : Request)
  : Response :=
  if negb (String.eqb (Method r) MethodGet) then
    Error "only GET is allowed" StatusMethodNotAllowed
  else
    let address := Values_Get (URL_Query (RawQuery r)) "address" in
    if String.eqb address EmptyString then
      Error "address is required" StatusBadRequest
    else
      let txs := Parser_GetTransactions p address in
      writeJSON StatusOK (Transactions txs).

End Handlers.

End http.

(** A subscribed address has a sequence. *)
Definition subscribed_sequences (m : MemoryStore) : Prop :=
  forall a, subscribed_at m a = true -> is_Some (transactions m !! a).

(** A codec double for the handlers: the body is the address itself, the
    query string the value of its only parameter, [address]. *)
#[export] Instance stubCodec : http.Codec :=
  { http.Decode_subReq body := (body, None);
    http.URL_Query q := {["address" := [q]]} }.

(** Environments for the production client: a codec that writes a request
    as its method name and reads a body as the result, with a node that
    answers height requests with "0x3" and everything else with status 503
    ([flakyEnv]), or everything with 503 ([downEnv]). *)
Definition stub_Marshal (req : rpc.rpcRequest) : string * option error :=
  (rpc.Method req, None).

Definition stub_Unmarshal_BlockNumber (bytes : string)
  : rpc.rpcResponseBlockNumber * option error :=
  (rpc.mkResponseBlockNumber 1 "2.0" bytes None, None).

Definition stub_Unmarshal_Block (bytes : string)
  : BlockResponse.t * option error :=
  (fixture_block bytes EmptyString [], None).

Definition flakyEnv : rpc.Env :=
  {| rpc.json_Marshal := stub_Marshal;
     rpc.http_NewRequest := fun _ _ _ => None;
     rpc.network := fun _ _ payload =>
       if String.eqb payload "eth_blockNumber"
       then rpc.Responded 200 ("0x3", None)
       else rpc.Responded 503 (EmptyString, None);
     rpc.json_Unmarshal_BlockNumber := stub_Unmarshal_BlockNumber;
     rpc.json_Unmarshal_Block := stub_Unmarshal_Block |}.

Definition downEnv : rpc.Env :=
  {| rpc.json_Marshal := stub_Marshal;
     rpc.http_NewRequest := fun _ _ _ => None;
     rpc.network := fun _ _ _ => rpc.Responded 503 (EmptyString, None);
     rpc.json_Unmarshal_BlockNumber := stub_Unmarshal_BlockNumber;
     rpc.json_Unmarshal_Block := stub_Unmarshal_Block |}.

(** * Properties *)

(** ** Machine integers *)

Lemma wrap_int64_id z : Int64.in_range z -> Int64.wrap_int64 z = z.
Proof.
  unfold Int64.in_range, Int64.min_int64, Int64.max_int64, Int64.wrap_int64.
  intros Hz. rewrite Z.mod_small by lia. lia.
Qed.

Lemma wrap_int64_range z : Int64.in_range (Int64.wrap_int64 z).
Proof.
  unfold Int64.in_range, Int64.min_int64, Int64.max_int64, Int64.wrap_int64.
  pose proof (Z.mod_pos_bound (z + 2 ^ 63) (2 ^ 64) ltac:(lia)). lia.
Qed.

(** ** Hex heights *)

Module strconv_facts.

Import Int64 strconv.

(** The digit loop never returns a negative number. *)
Lemma parse_digits_nonneg base cutoff maxVal s :
  0 <= maxVal ->
  forall n, 0 <= n ->
    0 <= fst (parse_digits base cutoff maxVal n s).
Proof.
  intros Hmax. induction s as [|c s IH]; intros n Hn; simpl.
  - exact Hn.
  - destruct (digit_value (byte_of c)) as [d|]; [|simpl; lia].
    destruct (base <=? d); [simpl; lia|].
    destruct (cutoff <=? n); [exact Hmax|].
    destruct (_ || _); [exact Hmax|].
    apply IH. unfold wrap_uint64. apply Z.mod_pos_bound. lia.
Qed.

Lemma ParseUint_nonneg s base :
  0 <= fst (ParseUint s base 64).
Proof.
  unfold ParseUint. destruct (String.eqb s EmptyString); [simpl; lia|].
  destruct (_ && _); [|simpl; lia].
  apply parse_digits_nonneg; lia.
Qed.

(** A value [ParseInt] returns without error for 64 bits is an [int64]. *)
Lemma ParseInt_64_range s base v :
  ParseInt s base 64 = (v, None) -> in_range v.
Proof.
  unfold ParseInt. destruct s as [|c0 rest]; [discriminate|].
  destruct (if Ascii.eqb c0 "+" then _ else _) as [neg s1].
  pose proof (ParseUint_nonneg s1 base) as Hun.
  destruct (ParseUint s1 base 64) as [un err]. simpl in Hun.
  destruct err as [e|]; [destruct (negb (is_ErrRange e)); [intros [=]|]|].
  all: change (2 ^ (64 - 1)) with (2 ^ 63).
  all: unfold in_range, min_int64, max_int64.
  all: destruct neg; simpl;
    [ destruct (Z.ltb_spec (2 ^ 63) un); [discriminate|]
    | destruct (Z.leb_spec (2 ^ 63) un); [discriminate|] ];
    intros [= <-]; lia.
Qed.

End strconv_facts.

(** [hexToInt64] returns either a value without error or 0 with one. *)
Lemma hexToInt64_cases h :
  (exists v, hexToInt64 h = (v, None) /\ Int64.in_range v) \/
  (exists e, hexToInt64 h = (0, Some e)).
Proof.
  unfold hexToInt64.
  destruct (strconv.ParseInt (strip_0x h) 16 64) as [val [e|]] eqn:Hp.
  - right. eauto.
  - left. exists val. split; [reflexivity|].
    eapply strconv_facts.ParseInt_64_range, Hp.
Qed.

Lemma hexToInt64_range h v : hexToInt64 h = (v, None) -> Int64.in_range v.
Proof.
  destruct (hexToInt64_cases h) as [(v' & Hv & Hr)|(e & He)]; congruence.
Qed.

Lemma hexToInt64_error h v e : hexToInt64 h = (v, Some e) -> v = 0.
Proof.
  destruct (hexToInt64_cases h) as [(v' & Hv & Hr)|(e' & He)]; congruence.
Qed.

(** A string whose second byte, if any, is not ['x'] is left as it is. *)
Lemma strip_0x_no_prefix c s :
  (forall d s', s = String d s' -> d <> "x"%char) ->
  strip_0x (String c s) = String c s.
Proof.
  intros Hd. unfold strip_0x.
  destruct (2 <? _); simpl; [|reflexivity].
  destruct s as [|d s']; simpl.
  - destruct (Ascii.eqb_spec c "0"); reflexivity.
  - destruct (Ascii.eqb_spec c "0"); [|reflexivity].
    destruct (Ascii.eqb_spec d "x") as [->|]; [|reflexivity].
    exfalso. eapply Hd; reflexivity.
Qed.

Lemma substring_all t : String.substring 0 (String.length t) t = t.
Proof. induction t as [|a t IH]; simpl; [reflexivity|]. now f_equal. Qed.

Lemma strip_0x_prefixed c s : strip_0x ("0x" ++ String c s) = String c s.
Proof.
  unfold strip_0x.
  change ("0x" ++ String c s)%string
    with (String "0" (String "x" (String c s))).
  cbn [String.length].
  destruct (Z.ltb_spec 2 (Z.of_nat (S (S (S (String.length s)))))); [|lia].
  cbn [andb String.substring].
  change ("0x" =? "0x")%string with true. cbv iota.
  replace (S (S (S (String.length s))) - 2)%nat with (S (String.length s))
    by lia.
  now rewrite substring_all.
Qed.

Lemma is_hex_digit_not_x d : is_hex_digit d = true -> d <> "x"%char.
Proof. intros Hd ->. vm_compute in Hd. discriminate. Qed.

Lemma hexToInt64_prefix_optional s :
  hex_digits s = true -> hexToInt64 ("0x" ++ s) = hexToInt64 s.
Proof.
  destruct s as [|c s]; intros Hs; [reflexivity|].
  unfold hexToInt64. rewrite strip_0x_prefixed, strip_0x_no_prefix; [reflexivity|].
  intros d s' ->. apply is_hex_digit_not_x.
  unfold hex_digits in Hs. simpl in Hs.
  apply andb_prop in Hs as [_ Hs]. now apply andb_prop in Hs as [Hs _].
Qed.

(** A loop that appends one element per input element builds a [map]. *)
Lemma fold_left_snoc_map {A B} (f : A -> B) (l : list A) (acc : list B) :
  fold_left (fun acc x => acc ++ [f x]) l acc = acc ++ map f l.
Proof.
  revert acc. induction l as [|x l IH]; intros acc; simpl.
  - now rewrite app_nil_r.
  - rewrite IH, <- app_assoc. reflexivity.
Qed.

Lemma hexToInt64OrZero_block_height number :
  hexToInt64OrZero number = block_height number.
Proof.
  unfold hexToInt64OrZero, block_height.
  destruct (hexToInt64 number) as [v [e|]] eqn:Hh; [|reflexivity].
  simpl. eapply hexToInt64_error, Hh.
Qed.

Lemma parseTransactions_map block :
  parseTransactions block =
  map (fun raw =>
         Transaction.mk (RawTx.Hash raw) (RawTx.From raw) (RawTx.To raw)
           (RawTx.Value raw)
           (block_height (BlockResponse.Number (BlockResponse.Result block))))
      (BlockResponse.Transactions (BlockResponse.Result block)).
Proof.
  unfold parseTransactions.
  rewrite (fold_left_snoc_map
             (fun raw => Transaction.mk (RawTx.Hash raw) (RawTx.From raw)
                           (RawTx.To raw) (RawTx.Value raw) _)).
  now rewrite hexToInt64OrZero_block_height.
Qed.

(** C8.  The "0x" prefix is optional: a string of hex digits parses to the
    same result with and without it.  Every transaction [parseTransactions]
    produces carries the height parsed from the block's own number field,
    and 0 when that field does not parse; in both cases the block is decoded
    in full, one transaction per raw transaction, in order, with hash,
    sender, recipient and value copied. *)
Theorem hex_height_parsing :
  (forall s, hex_digits s = true -> hexToInt64 ("0x" ++ s) = hexToInt64 s) /\
  (forall block : BlockResponse.t,
     let number := BlockResponse.Number (BlockResponse.Result block) in
     let raws := BlockResponse.Transactions (BlockResponse.Result block) in
     exists height,
       (forall v, hexToInt64 number = (v, None) -> height = v) /\
       (forall v e, hexToInt64 number = (v, Some e) -> height = 0) /\
       parseTransactions block =
       map (fun raw =>
              Transaction.mk (RawTx.Hash raw) (RawTx.From raw) (RawTx.To raw)
                (RawTx.Value raw) height) raws /\
       (forall tx, In tx (parseTransactions block) ->
                   Transaction.Block tx = height)).
Proof.
  split; [exact hexToInt64_prefix_optional|].
  intros block number raws. exists (block_height number).
  split; [|split; [|split]].
  - intros v Hv. unfold block_height. now rewrite Hv.
  - intros v e Hv. unfold block_height. now rewrite Hv.
  - apply parseTransactions_map.
  - intros tx Htx. rewrite parseTransactions_map in Htx.
    apply in_map_iff in Htx as (raw & <- & _). reflexivity.
Qed.

(** The fixture's prefixed and bare heights agree, and a block whose number
    does not parse is still decoded, at height 0. *)
Lemma hex_height_parsing_witness :
  hexToInt64 "0x1a" = hexToInt64 "1a" /\
  hexToInt64 "1a" = (26, None) /\
  parseTransactions
    (fixture_block "zz" "0xblock" [RawTx.mk "0xtx" "0xA" "0xB" "0x1"]) =
  [Transaction.mk "0xtx" "0xA" "0xB" "0x1" 0].
Proof.
  split; [|split].
  - exact (proj1 hex_height_parsing "1a" eq_refl).
  - reflexivity.
  - reflexivity.
Defined.

(** ** The store *)

Lemma copy_make_slice txs : copy_slice (make_slice (length txs)) txs = txs.
Proof.
  unfold copy_slice, make_slice.
  rewrite length_replicate, Nat.min_id, firstn_all.
  rewrite drop_ge by (rewrite length_replicate; lia).
  apply app_nil_r.
Qed.

(** [GetTransactions] returns the stored contents, nothing for a missing
    key. *)
Lemma GetTransactions_at m a : GetTransactions m a = transactions_at m a.
Proof.
  unfold GetTransactions, transactions_at.
  destruct (transactions m !! a) as [txs|]; simpl; [|reflexivity].
  apply copy_make_slice.
Qed.

Lemma Subscribe_subscribed m a b :
  subscribed_at m b = true -> subscribed_at (snd (Subscribe m a)) b = true.
Proof.
  unfold Subscribe. destruct (subscribed_at m a) eqn:Ha; simpl; [tauto|].
  intros Hb. unfold subscribed_at in *. simpl.
  destruct (decide (a = b)) as [->|Hne].
  - now rewrite lookup_insert_eq.
  - now rewrite lookup_insert_ne.
Qed.

Lemma AddTransaction_subscribed m a tx :
  subscribed (AddTransaction m a tx) = subscribed m.
Proof. unfold AddTransaction. now destruct (subscribed_at m a). Qed.

(** No call of the store takes a subscription away. *)
Lemma apply_op_subscribed m o b :
  subscribed_at m b = true -> subscribed_at (apply_op m o) b = true.
Proof.
  destruct o; simpl; try tauto.
  - apply Subscribe_subscribed.
  - unfold subscribed_at. now rewrite AddTransaction_subscribed.
Qed.

Lemma run_ops_subscribed ops : forall m b,
  subscribed_at m b = true -> subscribed_at (run_ops m ops) b = true.
Proof.
  induction ops as [|o ops IH]; intros m b Hb; simpl; [exact Hb|].
  apply IH, apply_op_subscribed, Hb.
Qed.

(** Only [Subscribe a] makes [a] subscribed. *)
Lemma apply_op_unsubscribed m o a :
  o <> OpSubscribe a ->
  subscribed_at m a = false -> subscribed_at (apply_op m o) a = false.
Proof.
  intros Ho Ha. destruct o as [b| |b tx| | |]; simpl; try exact Ha.
  - assert (b <> a) by congruence.
    unfold Subscribe. destruct (subscribed_at m b); simpl; [exact Ha|].
    unfold subscribed_at in *. simpl. now rewrite lookup_insert_ne.
  - unfold subscribed_at. now rewrite AddTransaction_subscribed.
Qed.

Lemma run_ops_unsubscribed ops : forall m a,
  Forall (fun o => o <> OpSubscribe a) ops ->
  subscribed_at m a = false -> subscribed_at (run_ops m ops) a = false.
Proof.
  induction ops as [|o ops IH]; intros m a Hops Ha; simpl; [exact Ha|].
  inversion Hops; subst. apply IH; [assumption|].
  now apply apply_op_unsubscribed.
Qed.

Lemma apply_op_sequences_subscribed m o :
  sequences_subscribed m -> sequences_subscribed (apply_op m o).
Proof.
  intros Hm. destruct o as [b| |b tx| | |]; simpl; try exact Hm.
  - unfold Subscribe. destruct (subscribed_at m b) eqn:Hb; simpl; [exact Hm|].
    intros a. unfold subscribed_at. simpl.
    destruct (decide (b = a)) as [->|Hne].
    + now rewrite lookup_insert_eq.
    + rewrite !lookup_insert_ne by assumption. apply Hm.
  - unfold AddTransaction. destruct (subscribed_at m b) eqn:Hb; [|exact Hm].
    intros a. unfold subscribed_at. simpl. intros Ha.
    destruct (decide (b = a)) as [->|Hne].
    + unfold subscribed_at in Hb. congruence.
    + rewrite lookup_insert_ne by assumption. now apply Hm.
Qed.

Lemma run_ops_sequences_subscribed ops : forall m,
  sequences_subscribed m -> sequences_subscribed (run_ops m ops).
Proof.
  induction ops as [|o ops IH]; intros m Hm; simpl; [exact Hm|].
  apply IH, apply_op_sequences_subscribed, Hm.
Qed.

Lemma NewMemoryStore_sequences_subscribed :
  sequences_subscribed NewMemoryStore.
Proof. intros a _. apply lookup_empty. Qed.

(** C3.  After any calls of the store that do not subscribe [A], made on a
    new store, [A] is not subscribed and has no sequence, and [Subscribe A]
    returns true and leaves [A] subscribed with an empty transaction
    sequence; after that call, and whatever calls follow it, [Subscribe A]
    returns false and changes nothing. *)
Theorem Subscribe_once (A : string) (before after : list store_op) :
  Forall (fun o => o <> OpSubscribe A) before ->
  let m1 := run_ops NewMemoryStore before in
  let m2 := snd (Subscribe m1 A) in
  let m3 := run_ops m2 after in
  fst (Subscribe m1 A) = true /\
  IsSubscribed m1 A = false /\
  transactions m1 !! A = None /\
  IsSubscribed m2 A = true /\
  transactions m2 !! A = Some [] /\
  GetTransactions m2 A = [] /\
  Subscribe m3 A = (false, m3).
Proof.
  intros Hbefore m1 m2 m3.
  assert (H1 : subscribed_at m1 A = false).
  { apply run_ops_unsubscribed; [assumption|reflexivity]. }
  assert (H2 : subscribed_at m2 A = true).
  { unfold m2, Subscribe. rewrite H1. unfold subscribed_at. simpl.
    now rewrite lookup_insert_eq. }
  assert (H3 : transactions m2 !! A = Some []).
  { unfold m2, Subscribe. rewrite H1. simpl. now rewrite lookup_insert_eq. }
  repeat split.
  - unfold Subscribe. now rewrite H1.
  - exact H1.
  - apply (run_ops_sequences_subscribed before NewMemoryStore
             NewMemoryStore_sequences_subscribed), H1.
  - exact H2.
  - exact H3.
  - rewrite GetTransactions_at. unfold transactions_at. now rewrite H3.
  - pose proof (run_ops_subscribed after m2 A H2) as H4.
    change (subscribed_at m3 A = true) in H4.
    unfold Subscribe. now rewrite H4.
Qed.

(** The store of the test: other calls first, then two subscriptions of the
    same address around further calls. *)
Lemma Subscribe_once_witness :
  let tx := Transaction.mk "0xabc" "0x1234" "0x5678" "0x1" 100 in
  let m1 := run_ops NewMemoryStore
              [OpSubscribe "0x5678"; OpAddTransaction "0x1234" tx] in
  let m2 := snd (Subscribe m1 "0x1234") in
  let m3 := run_ops m2 [OpAddTransaction "0x1234" tx; OpSetCurrentBlock 7] in
  fst (Subscribe m1 "0x1234") = true /\
  IsSubscribed m1 "0x1234" = false /\
  transactions m1 !! "0x1234" = None /\
  IsSubscribed m2 "0x1234" = true /\
  transactions m2 !! "0x1234" = Some [] /\
  GetTransactions m2 "0x1234" = [] /\
  Subscribe m3 "0x1234" = (false, m3).
Proof.
  apply (Subscribe_once "0x1234"
           [OpSubscribe "0x5678";
            OpAddTransaction "0x1234"
              (Transaction.mk "0xabc" "0x1234" "0x5678" "0x1" 100)]
           [OpAddTransaction "0x1234"
              (Transaction.mk "0xabc" "0x1234" "0x5678" "0x1" 100);
            OpSetCurrentBlock 7]).
  repeat constructor; discriminate.
Defined.

Lemma AddTransaction_at m a tx b :
  transactions_at (AddTransaction m a tx) b =
  transactions_at m b ++
  (if subscribed_at m a && String.eqb a b then [tx] else []).
Proof.
  unfold AddTransaction. destruct (subscribed_at m a); simpl.
  - unfold transactions_at at 1. simpl.
    destruct (String.eqb_spec a b) as [->|Hne].
    + now rewrite lookup_insert_eq.
    + rewrite lookup_insert_ne by assumption. now rewrite app_nil_r.
  - now rewrite app_nil_r.
Qed.

(** C4.  [AddTransaction A tx] returns the store it was given when [A] is
    not subscribed.  When [A] is subscribed, [A]'s sequence afterwards is
    the one before followed by [tx], and the sequence of every other
    address, the subscriptions and the cursor are as before. *)
Theorem AddTransaction_only_if_subscribed
  (m : MemoryStore) (A : string) (tx : Transaction.t) :
  (IsSubscribed m A = false -> AddTransaction m A tx = m) /\
  (IsSubscribed m A = true ->
   let m' := AddTransaction m A tx in
   GetTransactions m' A = GetTransactions m A ++ [tx] /\
   (forall B, B <> A -> transactions m' !! B = transactions m !! B) /\
   subscribed m' = subscribed m /\
   CurrentBlock m' = CurrentBlock m).
Proof.
  split; intros HA; unfold IsSubscribed in HA.
  - unfold AddTransaction. now rewrite HA.
  - cbv zeta. repeat split.
    + rewrite !GetTransactions_at.
      rewrite AddTransaction_at, HA, String.eqb_refl. reflexivity.
    + intros B HB. unfold AddTransaction. rewrite HA. simpl.
      now rewrite lookup_insert_ne by congruence.
    + apply AddTransaction_subscribed.
    + unfold AddTransaction. now rewrite HA.
Qed.

(** The store of [TestMemoryStore]: the subscribed address gets the
    transaction, a stranger does not. *)
Lemma AddTransaction_only_if_subscribed_witness :
  let tx := Transaction.mk "0xabc" "0x1234" "0x5678" "0x1" 100 in
  let m := snd (Subscribe NewMemoryStore "0x1234") in
  AddTransaction m "0x5678" tx = m /\
  GetTransactions (AddTransaction m "0x1234" tx) "0x1234" =
  GetTransactions m "0x1234" ++ [tx].
Proof.
  intros tx m. split.
  - exact (proj1 (AddTransaction_only_if_subscribed m "0x5678" tx) eq_refl).
  - exact (proj1 (proj2 (AddTransaction_only_if_subscribed m "0x1234" tx)
                    eq_refl)).
Defined.

(** ** Ingestion *)

Lemma storeTransaction_subscribed m tx :
  subscribed (storeTransaction m tx) = subscribed m.
Proof.
  unfold storeTransaction.
  repeat (match goal with |- context [if ?b then _ else _] => destruct b end);
    now rewrite ?AddTransaction_subscribed.
Qed.

Lemma storeTransaction_CurrentBlock m tx :
  CurrentBlock (storeTransaction m tx) = CurrentBlock m.
Proof.
  unfold storeTransaction, AddTransaction, IsSubscribed.
  repeat (match goal with |- context [if ?b then _ else _] => destruct b end);
    reflexivity.
Qed.

Lemma subscribed_at_ext m m' a :
  subscribed m' = subscribed m -> subscribed_at m' a = subscribed_at m a.
Proof. unfold subscribed_at. now intros ->. Qed.

Lemma storeTransaction_at m tx a :
  transactions_at (storeTransaction m tx) a =
  transactions_at m a ++ recorded_for m a tx.
Proof.
  unfold storeTransaction, recorded_for, IsSubscribed.
  set (m1 := if subscribed_at m (Transaction.From tx)
             then AddTransaction m (Transaction.From tx) tx else m).
  assert (Hs : subscribed m1 = subscribed m).
  { unfold m1. destruct (subscribed_at m _);
      [apply AddTransaction_subscribed|reflexivity]. }
  assert (H1 : transactions_at m1 a =
               transactions_at m a ++
               (if subscribed_at m (Transaction.From tx)
                   && String.eqb (Transaction.From tx) a then [tx] else [])).
  { unfold m1. destruct (subscribed_at m (Transaction.From tx)) eqn:Hf.
    - now rewrite AddTransaction_at, Hf.
    - simpl. now rewrite app_nil_r. }
  rewrite (subscribed_at_ext m m1 _ Hs).
  destruct (subscribed_at m (Transaction.To tx)) eqn:Ht.
  - rewrite AddTransaction_at, (subscribed_at_ext m m1 _ Hs), Ht, H1.
    now rewrite <- app_assoc.
  - rewrite H1. simpl. now rewrite app_nil_r.
Qed.

Lemma storeTransactions_subscribed txs : forall m,
  subscribed (storeTransactions m txs) = subscribed m.
Proof.
  induction txs as [|tx txs IH]; intros m; simpl; [reflexivity|].
  unfold storeTransactions in *. simpl.
  now rewrite IH, storeTransaction_subscribed.
Qed.

Lemma storeTransactions_CurrentBlock txs : forall m,
  CurrentBlock (storeTransactions m txs) = CurrentBlock m.
Proof.
  induction txs as [|tx txs IH]; intros m; simpl; [reflexivity|].
  unfold storeTransactions in *. simpl.
  now rewrite IH, storeTransaction_CurrentBlock.
Qed.

Lemma recorded_for_ext m m' a tx :
  subscribed m' = subscribed m -> recorded_for m' a tx = recorded_for m a tx.
Proof.
  intros Hs. unfold recorded_for.
  now rewrite !(subscribed_at_ext m m' _ Hs).
Qed.

(** The sequence of [a] after a block: the transactions of the block that
    [a] is an end of are appended in block order. *)
Lemma storeTransactions_at txs : forall m a,
  transactions_at (storeTransactions m txs) a =
  transactions_at m a ++ flat_map (recorded_for m a) txs.
Proof.
  induction txs as [|tx txs IH]; intros m a; simpl.
  - now rewrite app_nil_r.
  - unfold storeTransactions in *. simpl.
    rewrite IH, storeTransaction_at, <- app_assoc. f_equal. f_equal.
    apply flat_map_ext. intros tx'.
    apply recorded_for_ext, storeTransaction_subscribed.
Qed.

Lemma storeTransactions_app m txs1 txs2 :
  storeTransactions m (txs1 ++ txs2) =
  storeTransactions (storeTransactions m txs1) txs2.
Proof. unfold storeTransactions. apply fold_left_app. Qed.

Lemma recorded_for_party m a tx tx' :
  In tx' (recorded_for m a tx) ->
  tx' = tx /\ (a = Transaction.From tx \/ a = Transaction.To tx).
Proof.
  unfold recorded_for. intros Hin. apply in_app_or in Hin as [Hin|Hin].
  - destruct (subscribed_at m _); simpl in Hin; [|contradiction].
    destruct (String.eqb_spec (Transaction.From tx) a); simpl in Hin;
      [|contradiction].
    destruct Hin as [<-|[]]. auto.
  - destruct (subscribed_at m _); simpl in Hin; [|contradiction].
    destruct (String.eqb_spec (Transaction.To tx) a); simpl in Hin;
      [|contradiction].
    destruct Hin as [<-|[]]. auto.
Qed.

(** Case analysis along the control flow of [processNextBlock]. *)
Ltac step_cases p :=
  unfold processNextBlock;
  let c1 := fresh "c1" in
  let hex := fresh "hex" in
  let e := fresh "e" in
  let Hbn := fresh "Hbn" in
  destruct (BlockNumber (client p)) as [c1 [hex [e|]]] eqn:Hbn;
  [|let h := fresh "h" in
    let Hh := fresh "Hh" in
    destruct (hexToInt64 hex) as [h [e|]] eqn:Hh;
    [|let Htip := fresh "Htip" in
      destruct (Z.leb_spec h (GetCurrentBlock (store p))) as [Htip|Htip];
      [|let c2 := fresh "c2" in
        let blockData := fresh "blockData" in
        let Hgb := fresh "Hgb" in
        destruct (GetBlockByNumber c1
                    (Int64.wrap_int64 (GetCurrentBlock (store p) + 1)))
          as [c2 [blockData [e|]]] eqn:Hgb]]];
  cbn [step_err step_parser step_calls store client parseRunning].

Section ParserFacts.

Context {C : Type} `{JSONRPCClient C}.

(** C1.  For a store whose cursor [c] is an [int]: a call that returns no
    error while the parsed chain tip [h] is above [c] leaves the cursor at
    [c + 1]; a call that sees [h <= c], and a call that returns an error,
    leave it at [c].  In every case the cursor afterwards is [c] or
    [c + 1], and again an [int]. *)
Theorem processNextBlock_cursor (p : EthParser C) :
  Int64.in_range (GetCurrentBlock (store p)) ->
  let c := GetCurrentBlock (store p) in
  let r := processNextBlock p in
  let c' := GetCurrentBlock (store (step_parser r)) in
  (forall hex h,
      step_err r = None ->
      snd (BlockNumber (client p)) = (hex, None) ->
      hexToInt64 hex = (h, None) ->
      c < h -> c' = c + 1) /\
  (forall hex h,
      snd (BlockNumber (client p)) = (hex, None) ->
      hexToInt64 hex = (h, None) ->
      h <= c -> c' = c /\ step_err r = None) /\
  (step_err r <> None -> c' = c) /\
  c <= c' <= c + 1 /\
  Int64.in_range c'.
Proof.
  intros Hc. cbv zeta. step_cases p; cbn [snd].
  all: try pose proof (hexToInt64_range _ _ Hh) as Hr.
  all: unfold GetCurrentBlock, SetCurrentBlock in *; cbn [CurrentBlock].
  5: rewrite wrap_int64_id
       by (unfold Int64.in_range, Int64.min_int64, Int64.max_int64 in *; lia).
  all: unfold Int64.in_range, Int64.min_int64, Int64.max_int64 in *.
  all: repeat split; intros;
    repeat match goal with
      | Hx : (_, Some _) = (_, None) |- _ => discriminate Hx
      | Hx : (?a, None) = (?b, None) |- _ => injection Hx as ->
      | Hx : hexToInt64 ?x = _, Hy : hexToInt64 ?x = _ |- _ =>
          rewrite Hx in Hy
      end;
    try congruence; try lia.
Qed.

(** The store after a step is the store before, or the store before with
    the fetched block's transactions recorded and the cursor set. *)
Lemma processNextBlock_store (p : EthParser C) :
  let r := processNextBlock p in
  (store (step_parser r) = store p) \/
  (step_err r = None /\
   exists blockData,
     store (step_parser r) =
     SetCurrentBlock
       (storeTransactions (store p) (parseTransactions blockData))
       (Int64.wrap_int64 (GetCurrentBlock (store p) + 1))).
Proof. cbv zeta. step_cases p; eauto. Qed.

Lemma processNextBlock_parseRunning (p : EthParser C) :
  parseRunning (step_parser (processNextBlock p)) = parseRunning p.
Proof. step_cases p; reflexivity. Qed.

(** C6.  When [BlockNumber] returns an error, when its answer does not
    parse, or when the step makes a [GetBlockByNumber] call that returns
    an error, [processNextBlock] returns an error and the store
    afterwards is the store before. *)
Theorem processNextBlock_error_unchanged (p : EthParser C) :
  let r := processNextBlock p in
  (exists hex e, snd (BlockNumber (client p)) = (hex, Some e)) \/
  (exists hex v e, snd (BlockNumber (client p)) = (hex, None) /\
                   hexToInt64 hex = (v, Some e)) \/
  (exists n blockData e,
      In (CallGetBlockByNumber n (blockData, Some e)) (step_calls r)) ->
  step_err r <> None /\ store (step_parser r) = store p.
Proof.
  cbv zeta. step_cases p; cbn [snd]; intros Hfail.
  1, 2, 4: split; [discriminate|reflexivity].
  all: exfalso; destruct Hfail as [(hex' & e' & Hx)|
                       [(hex' & v' & e' & Hx & Hy)|(n & b & e' & Hin)]];
    try discriminate;
    try (injection Hx as <-; rewrite Hh in Hy; discriminate);
    simpl in Hin; intuition discriminate.
Qed.

(** The call for the next block is made for block [c + 1], and only when
    the chain tip is above the cursor [c]. *)
Lemma processNextBlock_calls (p : EthParser C) n answer :
  Int64.in_range (GetCurrentBlock (store p)) ->
  In (CallGetBlockByNumber n answer) (step_calls (processNextBlock p)) ->
  n = GetCurrentBlock (store p) + 1 /\
  exists hex h, snd (BlockNumber (client p)) = (hex, None) /\
                hexToInt64 hex = (h, None) /\
                GetCurrentBlock (store p) < h.
Proof.
  intros Hc. step_cases p; cbn [snd]; simpl; intros Hin.
  1, 2, 3: intuition discriminate.
  all: destruct Hin as [Hin|[Hin|[]]]; [discriminate|];
    injection Hin as <- _;
    pose proof (hexToInt64_range _ _ Hh) as Hr;
    (split; [apply wrap_int64_id;
             unfold Int64.in_range, Int64.min_int64, Int64.max_int64 in *;
             lia | eauto]).
Qed.

(** A step moves an [int] cursor by zero or one, to an [int]. *)
Lemma processNextBlock_step (p : EthParser C) :
  Int64.in_range (GetCurrentBlock (store p)) ->
  GetCurrentBlock (store p)
    <= GetCurrentBlock (store (step_parser (processNextBlock p)))
    <= GetCurrentBlock (store p) + 1 /\
  Int64.in_range (GetCurrentBlock (store (step_parser (processNextBlock p)))).
Proof.
  intros Hc. step_cases p.
  all: try pose proof (hexToInt64_range _ _ Hh) as Hr.
  all: unfold GetCurrentBlock, SetCurrentBlock in *; cbn [CurrentBlock].
  5: rewrite wrap_int64_id
       by (unfold Int64.in_range, Int64.min_int64, Int64.max_int64 in *; lia).
  all: unfold Int64.in_range, Int64.min_int64, Int64.max_int64 in *; lia.
Qed.

(** The cursor over a run of the loop: it never decreases and moves by at
    most one per iteration. *)
Lemma parser_loop_cursor n : forall p : EthParser C,
  Int64.in_range (GetCurrentBlock (store p)) ->
  GetCurrentBlock (store p) <= GetCurrentBlock (store (parser_loop n p))
    <= GetCurrentBlock (store p) + Z.of_nat n.
Proof.
  induction n as [|n IH]; intros p Hc; simpl; [lia|].
  destruct (processNextBlock_step p Hc) as (Hstep & Hr).
  specialize (IH _ Hr). lia.
Qed.

Lemma parser_loop_parseRunning n : forall p : EthParser C,
  parseRunning (parser_loop n p) = parseRunning p.
Proof.
  induction n as [|n IH]; intros p; simpl; [reflexivity|].
  now rewrite IH, processNextBlock_parseRunning.
Qed.

Lemma StartParsing_running (p : EthParser C) ctx :
  parseRunning p = true -> StartParsing p ctx = Some p.
Proof. unfold StartParsing. now intros ->. Qed.

Lemma StartParsing_sets (p p' : EthParser C) ctx :
  StartParsing p ctx = Some p' -> parseRunning p' = true.
Proof.
  unfold StartParsing. destruct (parseRunning p) eqn:Hr.
  - now intros [= <-].
  - destruct ctx as [n|]; [|discriminate]. intros [= <-].
    now rewrite parser_loop_parseRunning.
Qed.

Lemma apply_parser_op_running (p : EthParser C) o :
  parseRunning p = true ->
  exists p', apply_parser_op p o = Some p' /\ parseRunning p' = true.
Proof.
  intros Hr. destruct o as [a|a| | |ctx]; simpl; eauto.
  - eexists; split; [reflexivity|]. unfold Parser_Subscribe.
    now destruct (Subscribe (store p) a).
  - eexists; split; [reflexivity|]. now rewrite processNextBlock_parseRunning.
  - exists p. split; [now apply StartParsing_running|assumption].
Qed.

Lemma run_parser_ops_running ops : forall p : EthParser C,
  parseRunning p = true ->
  exists p', run_parser_ops p ops = Some p' /\ parseRunning p' = true.
Proof.
  induction ops as [|o ops IH]; intros p Hr; simpl; [eauto|].
  destruct (apply_parser_op_running p o Hr) as (p1 & -> & Hr1).
  now apply IH.
Qed.

(** C9.  A call of [StartParsing] that returns leaves [parseRunning]
    true; no later call of the parser resets it, each of them returns,
    and every later [StartParsing], for any context (also one that is
    never cancelled), returns at once with the parser as it was.  A first
    call on a parser whose flag is false, under a context cancelled after
    [n] iterations, returns after running [n] iterations with the flag
    set.  While the loop of a first call runs, after any number of
    iterations, another [StartParsing] returns at once as well. *)
Theorem StartParsing_once (p p1 : EthParser C) (ctx : option nat) :
  StartParsing p ctx = Some p1 ->
  parseRunning p1 = true /\
  (parseRunning p = false ->
   exists n, ctx = Some n /\
     p1 = parser_loop n (mkParser (client p) (store p) true)) /\
  (forall ops, exists p2,
      run_parser_ops p1 ops = Some p2 /\
      parseRunning p2 = true /\
      forall ctx', StartParsing p2 ctx' = Some p2) /\
  (forall k ctx',
      let pk := parser_loop k (mkParser (client p) (store p) true) in
      StartParsing pk ctx' = Some pk).
Proof.
  intros Hstart. pose proof (StartParsing_sets _ _ _ Hstart) as Hr.
  split; [exact Hr|]. split; [|split].
  - intros Hp. unfold StartParsing in Hstart. rewrite Hp in Hstart.
    destruct ctx as [n|]; [|discriminate]. injection Hstart as <-. eauto.
  - intros ops. destruct (run_parser_ops_running ops p1 Hr) as (p2 & Hp2 & Hr2).
    exists p2. repeat split; try assumption.
    intros ctx'. now apply StartParsing_running.
  - intros k ctx' pk. apply StartParsing_running.
    unfold pk. now rewrite parser_loop_parseRunning.
Qed.

End ParserFacts.

Lemma storeTransactions_parties_only m txs :
  parties_only m -> parties_only (storeTransactions m txs).
Proof.
  intros Hm a tx. rewrite storeTransactions_at. intros Hin.
  apply in_app_or in Hin as [Hin|Hin]; [now apply Hm|].
  apply in_flat_map in Hin as (tx0 & _ & Hin).
  apply recorded_for_party in Hin as [-> Hp]. exact Hp.
Qed.

Lemma Subscribe_parties_only m a :
  parties_only m -> parties_only (snd (Subscribe m a)).
Proof.
  intros Hm. unfold Subscribe. destruct (subscribed_at m a); [exact Hm|].
  intros b tx. unfold transactions_at. simpl.
  destruct (decide (a = b)) as [->|Hne].
  - rewrite lookup_insert_eq. simpl. contradiction.
  - rewrite lookup_insert_ne by assumption. apply Hm.
Qed.

Lemma ingested_parties_only m : ingested m -> parties_only m.
Proof.
  induction 1 as [|m a _ IH|C HC p _ IH].
  - intros a tx. unfold transactions_at. simpl. rewrite lookup_empty.
    simpl. contradiction.
  - now apply Subscribe_parties_only.
  - destruct (processNextBlock_store p) as [->|(_ & blockData & ->)];
      [exact IH|].
    intros a tx Hin.
    exact (storeTransactions_parties_only _ (parseTransactions blockData)
             IH a tx Hin).
Qed.

(** C5.  What [storeTransactions] appends to the sequence of an address [A]
    are transactions of the block that have [A] as sender or recipient; and
    in every store reached from a new one by subscriptions and ingestion
    steps, each transaction in [A]'s sequence has [A] as sender or
    recipient. *)
Theorem recorded_only_for_parties :
  (forall m txs A, exists added,
      GetTransactions (storeTransactions m txs) A =
      GetTransactions m A ++ added /\
      Forall (fun tx => In tx txs /\
                        (A = Transaction.From tx \/ A = Transaction.To tx))
             added) /\
  (forall m A tx,
      ingested m -> In tx (GetTransactions m A) ->
      A = Transaction.From tx \/ A = Transaction.To tx).
Proof.
  split.
  - intros m txs A. exists (flat_map (recorded_for m A) txs). split.
    + rewrite !GetTransactions_at. apply storeTransactions_at.
    + apply List.Forall_forall. intros tx Hin.
      apply in_flat_map in Hin as (tx0 & Hin0 & Hin).
      apply recorded_for_party in Hin as [-> Hp]. auto.
  - intros m A tx Hm. rewrite GetTransactions_at.
    now apply ingested_parties_only.
Qed.

(** C10.  For a subscribed address [A] and a transaction [tx] from [A] to
    [A]: storing [tx] appends it to [A]'s sequence twice, and in a block
    that contains [tx] the two copies follow what the transactions before
    it added and precede what those after it add. *)
Theorem self_transaction_recorded_twice
  (m : MemoryStore) (A : string) (tx : Transaction.t)
  (before after : list Transaction.t) :
  IsSubscribed m A = true ->
  Transaction.From tx = A ->
  Transaction.To tx = A ->
  GetTransactions (storeTransactions m [tx]) A =
  GetTransactions m A ++ [tx; tx] /\
  exists rest,
    GetTransactions (storeTransactions m (before ++ tx :: after)) A =
    GetTransactions (storeTransactions m before) A ++ [tx; tx] ++ rest.
Proof.
  unfold IsSubscribed. intros HA Hfrom Hto.
  assert (Hrec : forall m', subscribed m' = subscribed m ->
                            recorded_for m' A tx = [tx; tx]).
  { intros m' Hs. unfold recorded_for.
    rewrite Hfrom, Hto, (subscribed_at_ext m m' A Hs), HA, String.eqb_refl.
    reflexivity. }
  split.
  - rewrite !GetTransactions_at, storeTransactions_at. simpl.
    rewrite (Hrec m eq_refl). reflexivity.
  - exists (flat_map (recorded_for (storeTransactions m before) A) after).
    rewrite !GetTransactions_at, storeTransactions_app, storeTransactions_at.
    simpl. rewrite (Hrec _ (storeTransactions_subscribed before m)).
    reflexivity.
Qed.

(** ** The fixture of [TestParser] *)

(** C2.  On a new store, after subscribing "0x123" only, three calls of
    [processNextBlock] against the client of the test (latest height "0x3",
    block 1 with [tx1] and [tx2], block 2 with [tx3], block 3 empty) return
    no error and leave the cursor at 3 and the transactions of "0x123"
    equal to [tx1; tx3]. *)
Theorem fixture_scenario :
  fst (Parser_Subscribe (NewEthParser mc NewMemoryStore) "0x123") = true /\
  step_err (processNextBlock (fixture_after 0)) = None /\
  step_err (processNextBlock (fixture_after 1)) = None /\
  step_err (processNextBlock (fixture_after 2)) = None /\
  Parser_GetCurrentBlock (fixture_after 3) = 3 /\
  Parser_GetTransactions (fixture_after 3) "0x123" = [tx1; tx3] /\
  parseTransactions
    (default BlockResponse.zero (blocks mc !! 1)) = [tx1; tx2].
Proof. vm_compute. repeat split. Qed.

(** The first step of the fixture moves the cursor from 0 to 1. *)
Lemma processNextBlock_cursor_witness :
  Int64.in_range (GetCurrentBlock (store fixture_start)) /\
  GetCurrentBlock (store (step_parser (processNextBlock fixture_start))) =
  GetCurrentBlock (store fixture_start) + 1.
Proof.
  assert (Hc : Int64.in_range (GetCurrentBlock (store fixture_start))).
  { vm_compute. split; discriminate. }
  split; [exact Hc|].
  exact (proj1 (processNextBlock_cursor fixture_start Hc)
           "0x3" 3 eq_refl eq_refl eq_refl eq_refl).
Defined.

(** A step whose block fetch times out returns an error and keeps the
    store. *)
Lemma processNextBlock_error_unchanged_witness :
  let p := snd (Parser_Subscribe (NewEthParser timing_out NewMemoryStore)
                  "0x123") in
  In (CallGetBlockByNumber 1 (BlockResponse.zero, Some (ErrClient "timeout")))
     (step_calls (processNextBlock p)) /\
  step_err (processNextBlock p) <> None /\
  store (step_parser (processNextBlock p)) = store p.
Proof.
  intros p.
  assert (Hin : In (CallGetBlockByNumber 1
                      (BlockResponse.zero, Some (ErrClient "timeout")))
                   (step_calls (processNextBlock p))).
  { right. left. reflexivity. }
  split; [exact Hin|].
  apply (processNextBlock_error_unchanged p).
  right. right. exists 1, BlockResponse.zero, (ErrClient "timeout"). exact Hin.
Defined.

(** The parser of the test, started under a context cancelled after two
    iterations: the flag is set, and a second start under a context that is
    never cancelled returns at once. *)
Lemma StartParsing_once_witness :
  let p1 := parser_loop 2 (mkParser mc (store fixture_start) true) in
  StartParsing fixture_start (Some 2%nat) = Some p1 /\
  parseRunning p1 = true /\
  exists p2, run_parser_ops p1 [PSubscribe "0x555"; PProcessNextBlock]
             = Some p2 /\
             parseRunning p2 = true /\
             forall ctx', StartParsing p2 ctx' = Some p2.
Proof.
  intros p1.
  assert (Hs : StartParsing fixture_start (Some 2%nat) = Some p1)
    by reflexivity.
  split; [exact Hs|].
  destruct (StartParsing_once fixture_start p1 (Some 2%nat) Hs)
    as (Hr & _ & Hops & _).
  split; [exact Hr|]. apply Hops.
Defined.

(** In the store of the fixture, [tx1] is stored for its recipient. *)
Lemma recorded_only_for_parties_witness :
  ingested (store (fixture_after 3)) /\
  In tx1 (GetTransactions (store (fixture_after 3)) "0x123") /\
  ("0x123" = Transaction.From tx1 \/ "0x123" = Transaction.To tx1).
Proof.
  assert (Hi : ingested (store (fixture_after 3))).
  { exact (ingested_step (fixture_after 2)
             (ingested_step (fixture_after 1)
                (ingested_step (fixture_after 0)
                   (ingested_subscribe NewMemoryStore "0x123"
                      ingested_new)))). }
  assert (Hin : In tx1 (GetTransactions (store (fixture_after 3)) "0x123")).
  { vm_compute. left. reflexivity. }
  split; [exact Hi|]. split; [exact Hin|].
  exact (proj2 recorded_only_for_parties _ _ _ Hi Hin).
Defined.

(** A transfer of a subscribed address to itself is listed twice. *)
Lemma self_transaction_recorded_twice_witness :
  let m := snd (Subscribe NewMemoryStore "0xA") in
  let tx := Transaction.mk "0xself" "0xA" "0xA" "0x1" 5 in
  IsSubscribed m "0xA" = true /\
  GetTransactions (storeTransactions m [tx]) "0xA" = [tx; tx].
Proof.
  intros m tx. split; [reflexivity|].
  exact (proj1 (self_transaction_recorded_twice m "0xA" tx [] []
                  eq_refl eq_refl eq_refl)).
Defined.

Section SliceFacts.

Implicit Types (h : gmap positive (list Transaction.t)) (s : Slices.slice).

Lemma alloc_spec h n h' l :
  Slices.alloc h n = (h', l) ->
  h !! l = None /\ l <> Slices.zerobase /\
  h' = <[l := replicate n Transaction.zero]> h.
Proof.
  unfold Slices.alloc. intros [= <- <-].
  pose proof (is_fresh ({[Slices.zerobase]} ∪ dom h)) as Hf.
  repeat split.
  - apply not_elem_of_dom. set_solver.
  - set_solver.
Qed.

Lemma contents_length h s arr :
  h !! Slices.ptr s = Some arr -> (Slices.len s <= length arr)%nat ->
  length (Slices.contents h s) = Slices.len s.
Proof.
  intros Harr Hlen. unfold Slices.contents, Slices.array_at. rewrite Harr.
  simpl. rewrite length_take. lia.
Qed.

Lemma contents_empty h s : Slices.len s = 0%nat -> Slices.contents h s = [].
Proof. unfold Slices.contents. now intros ->. Qed.

(** A stored slice shows as many elements as its length says. *)
Lemma stored_contents_length st a s :
  Slices.store_ok st -> Slices.sequences st !! a = Some s ->
  length (Slices.contents (Slices.heap st) s) = Slices.len s.
Proof.
  intros Hok Hs. pose proof (Slices.ok_len st Hok a s Hs) as Hlen.
  destruct (Slices.cap s) as [|c] eqn:Hcap.
  - rewrite contents_empty by lia. simpl. lia.
  - destruct (Slices.ok_array st Hok a s Hs) as (arr & Harr & Hl); [lia|].
    apply (contents_length _ _ arr); [assumption|lia].
Qed.

(** A heap that keeps the arrays of the stored slices shows the same
    store. *)
Lemma abstract_with_heap st h' :
  Slices.store_ok st ->
  (forall a s arr, Slices.sequences st !! a = Some s ->
                   (0 < Slices.cap s)%nat ->
                   Slices.heap st !! Slices.ptr s = Some arr ->
                   h' !! Slices.ptr s = Some arr) ->
  Slices.abstract (Slices.with_heap st h') = Slices.abstract st.
Proof.
  intros Hok Hkeep. unfold Slices.abstract, Slices.with_heap. simpl.
  f_equal. apply map_fmap_ext. intros a s Hs.
  pose proof (Slices.ok_len st Hok a s Hs) as Hlen.
  destruct (Slices.cap s) as [|c] eqn:Hcap.
  - rewrite !contents_empty by lia. reflexivity.
  - destruct (Slices.ok_array st Hok a s Hs) as (arr & Harr & Hl); [lia|].
    unfold Slices.contents, Slices.array_at.
    rewrite Harr, (Hkeep a s arr Hs ltac:(lia) Harr). reflexivity.
Qed.

Lemma store_ok_with_heap st h' :
  Slices.store_ok st ->
  h' !! Slices.zerobase = None ->
  (forall a s arr, Slices.sequences st !! a = Some s ->
                   (0 < Slices.cap s)%nat ->
                   Slices.heap st !! Slices.ptr s = Some arr ->
                   h' !! Slices.ptr s = Some arr) ->
  Slices.store_ok (Slices.with_heap st h').
Proof.
  intros Hok Hz Hkeep. constructor; simpl.
  - exact Hz.
  - apply (Slices.ok_len st Hok).
  - intros a s Hs Hcap.
    destruct (Slices.ok_array st Hok a s Hs Hcap) as (arr & Harr & Hl).
    exists arr. split; [|assumption]. now apply (Hkeep a s arr).
  - apply (Slices.ok_separate st Hok).
Qed.

Lemma transactions_at_abstract st a :
  transactions_at (Slices.abstract st) a =
  match Slices.sequences st !! a with
  | Some s => Slices.contents (Slices.heap st) s
  | None => []
  end.
Proof.
  unfold transactions_at, Slices.abstract. simpl. rewrite lookup_fmap.
  now destruct (Slices.sequences st !! a).
Qed.

(** The slice [GetTransactions] returns shows the stored elements and
    lives in an array that was not in use before the call; the arrays in
    use are left as they were. *)
Lemma GetTransactions_fresh st a h' cp :
  Slices.store_ok st ->
  Slices.GetTransactions st a = (h', cp) ->
  Slices.contents h' cp = transactions_at (Slices.abstract st) a /\
  h' !! Slices.zerobase = None /\
  Slices.heap st !! Slices.ptr cp = None /\
  ((0 < Slices.len cp)%nat -> Slices.ptr cp <> Slices.zerobase) /\
  (forall l arr, Slices.heap st !! l = Some arr -> h' !! l = Some arr).
Proof.
  intros Hok. rewrite transactions_at_abstract.
  pose proof (Slices.ok_zerobase st Hok) as Hz.
  unfold Slices.GetTransactions.
  destruct (Slices.sequences st !! a) as [txs|] eqn:Hs.
  - pose proof (stored_contents_length st a txs Hok Hs) as Hlen.
    pose proof (Slices.ok_len st Hok a txs Hs) as Hcap.
    unfold Slices.make.
    destruct (Slices.len txs) as [|n] eqn:Hn.
    + intros [= <- <-]. simpl. repeat split; try assumption.
      * symmetry. apply contents_empty, Hn.
      * lia.
      * auto.
    + destruct (Slices.alloc (Slices.heap st) (S n)) as [h1 l] eqn:Ha.
      apply alloc_spec in Ha as (Hfresh & Hlz & ->).
      assert (Hzl : length (replicate (S n) Transaction.zero) = S n)
        by apply length_replicate.
      revert Hzl. generalize (replicate (S n) Transaction.zero) as zeros.
      intros zeros Hzl.
      intros [= <- <-]. unfold Slices.copy. cbn [Slices.len Slices.ptr].
      rewrite Hn, Nat.min_id.
      destruct (Slices.ok_array st Hok a txs Hs ltac:(lia))
        as (arr & Harr & Harrlen).
      assert (Hne : l <> Slices.ptr txs) by congruence.
      assert (Hsame : Slices.contents (<[l := zeros]> (Slices.heap st)) txs =
                      Slices.contents (Slices.heap st) txs).
      { unfold Slices.contents, Slices.array_at.
        now rewrite lookup_insert_ne. }
      rewrite Hsame.
      repeat split.
      * unfold Slices.contents at 1, Slices.array_at at 1.
        cbn [Slices.len Slices.ptr].
        rewrite lookup_insert_eq. simpl default.
        unfold Slices.array_at. rewrite lookup_insert_eq. simpl default.
        rewrite (take_ge (Slices.contents _ txs)) by lia.
        rewrite drop_ge by lia.
        rewrite app_nil_r. apply take_ge. lia.
      * rewrite !lookup_insert_ne by congruence. exact Hz.
      * exact Hfresh.
      * intros _. exact Hlz.
      * intros l' arr' Hl'. rewrite !lookup_insert_ne by congruence.
        exact Hl'.
  - unfold Slices.make. intros [= <- <-]. simpl.
    repeat split; try assumption; try lia. auto.
Qed.

(** An index assignment through a slice is one of the things its holder
    can do. *)
Lemma write_mutated_through h s i x :
  h !! Slices.zerobase = None ->
  ((0 < Slices.len s)%nat -> Slices.ptr s <> Slices.zerobase) ->
  Slices.mutated_through s h (Slices.write h s i x).
Proof.
  intros Hz Hp. unfold Slices.write, Slices.mutated_through.
  destruct (Nat.ltb_spec i (Slices.len s)); [|auto].
  split.
  - rewrite lookup_insert_ne; [exact Hz|]. apply Hp. lia.
  - intros l arr Hl Hne. now rewrite lookup_insert_ne by congruence.
Qed.

End SliceFacts.

(** C7.  [GetTransactions A] returns no elements when [A] has no entry,
    and otherwise the stored elements of [A] in their order.  The slice it
    returns lives in an array of its own: the call leaves the store as it
    was, and so does whatever the caller then writes through the returned
    slice. *)
Theorem GetTransactions_defensive_copy (st : Slices.state) (A : string) :
  Slices.store_ok st ->
  let m := Slices.abstract st in
  let h' := fst (Slices.GetTransactions st A) in
  let cp := snd (Slices.GetTransactions st A) in
  Slices.contents h' cp = GetTransactions m A /\
  (transactions m !! A = None -> GetTransactions m A = []) /\
  (forall txs, transactions m !! A = Some txs -> GetTransactions m A = txs) /\
  Slices.abstract (Slices.with_heap st h') = m /\
  Slices.store_ok (Slices.with_heap st h') /\
  (forall h'', Slices.mutated_through cp h' h'' ->
     Slices.abstract (Slices.with_heap st h'') = m /\
     Slices.store_ok (Slices.with_heap st h'')) /\
  (forall i x,
     Slices.abstract (Slices.with_heap st (Slices.write h' cp i x)) = m).
Proof.
  intros Hok m h' cp.
  destruct (Slices.GetTransactions st A) as [h1 cp1] eqn:Hget.
  simpl in h', cp. subst h' cp.
  destruct (GetTransactions_fresh st A h1 cp1 Hok Hget)
    as (Hcontents & Hz & Hfresh & Hnz & Hkeep).
  assert (Hmut : forall h'', Slices.mutated_through cp1 h1 h'' ->
            Slices.abstract (Slices.with_heap st h'') = m /\
            Slices.store_ok (Slices.with_heap st h'')).
  { intros h'' [Hz'' Hm].
    assert (Hk : forall a s arr, Slices.sequences st !! a = Some s ->
                   (0 < Slices.cap s)%nat ->
                   Slices.heap st !! Slices.ptr s = Some arr ->
                   h'' !! Slices.ptr s = Some arr).
    { intros a s arr Hs Hcap Harr. apply Hm; [now apply Hkeep|congruence]. }
    split; [now apply abstract_with_heap|now apply store_ok_with_heap]. }
  split; [|split; [|split; [|split; [|split; [|split]]]]].
  - rewrite GetTransactions_at. exact Hcontents.
  - intros Hnone. rewrite GetTransactions_at. unfold transactions_at.
    now rewrite Hnone.
  - intros txs Hsome. rewrite GetTransactions_at. unfold transactions_at.
    now rewrite Hsome.
  - apply abstract_with_heap; [assumption|]. intros a s arr _ _. apply Hkeep.
  - apply store_ok_with_heap; [assumption|assumption|].
    intros a s arr _ _. apply Hkeep.
  - exact Hmut.
  - intros i x. apply Hmut. now apply write_mutated_through.
Qed.

(** *** The slice-level store computes what [MemoryStore] says *)

Section SliceRefinement.

Implicit Types (h : gmap positive (list Transaction.t)) (s : Slices.slice).

Lemma store_ok_new : Slices.store_ok Slices.NewMemoryStore.
Proof. constructor; simpl; intros *; rewrite ?lookup_empty; congruence. Qed.

Lemma abstract_new : Slices.abstract Slices.NewMemoryStore = NewMemoryStore.
Proof. unfold Slices.abstract. simpl. now rewrite fmap_empty. Qed.

(** Storing under [a] a slice [s'] whose array [newarr] at [p] no other
    stored slice uses. *)
Lemma install_refines st a p newarr s' txs' :
  Slices.store_ok st ->
  p <> Slices.zerobase ->
  Slices.ptr s' = p ->
  length newarr = Slices.cap s' ->
  (Slices.len s' <= Slices.cap s')%nat ->
  (forall b t, b <> a -> Slices.sequences st !! b = Some t ->
               (0 < Slices.cap t)%nat -> Slices.ptr t <> p) ->
  take (Slices.len s') newarr = txs' ->
  let st' := Slices.mkState (<[p := newarr]> (Slices.heap st))
               (Slices.cursor st) (Slices.watched st)
               (<[a := s']> (Slices.sequences st)) in
  Slices.store_ok st' /\
  Slices.abstract st' =
  mkStore (Slices.cursor st) (Slices.watched st)
          (<[a := txs']> (transactions (Slices.abstract st))).
Proof.
  intros Hok Hp Hptr Hlen Hcap Hsep Htake st'. split.
  - constructor; simpl.
    + rewrite lookup_insert_ne by assumption. apply (Slices.ok_zerobase st Hok).
    + intros b t. destruct (decide (a = b)) as [->|Hne].
      * rewrite lookup_insert_eq. now intros [= <-].
      * rewrite lookup_insert_ne by assumption. apply (Slices.ok_len st Hok).
    + intros b t. destruct (decide (a = b)) as [->|Hne].
      * rewrite lookup_insert_eq. intros [= <-] _. exists newarr.
        rewrite Hptr, lookup_insert_eq. auto.
      * rewrite lookup_insert_ne by assumption. intros Ht Hc.
        rewrite lookup_insert_ne by (apply not_eq_sym; eapply Hsep; eauto).
        now apply (Slices.ok_array st Hok b).
    + intros b c t u Hbc.
      destruct (decide (a = b)) as [<-|Hab];
        destruct (decide (a = c)) as [<-|Hac]; try congruence.
      * rewrite lookup_insert_eq, lookup_insert_ne by assumption.
        intros [= <-] Hu _ Hcu. rewrite Hptr. apply not_eq_sym.
        eapply Hsep; eauto.
      * rewrite lookup_insert_eq, lookup_insert_ne by assumption.
        intros Ht [= <-] Hct _. rewrite Hptr. eapply Hsep; eauto.
      * rewrite !lookup_insert_ne by assumption.
        now apply (Slices.ok_separate st Hok).
  - unfold Slices.abstract, st'. simpl. f_equal.
    apply map_eq. intros b. destruct (decide (a = b)) as [->|Hne].
    + rewrite lookup_fmap, !lookup_insert_eq. simpl. f_equal.
      unfold Slices.contents, Slices.array_at.
      rewrite Hptr, lookup_insert_eq. exact Htake.
    + rewrite lookup_fmap, !lookup_insert_ne by assumption.
      rewrite lookup_fmap.
      destruct (Slices.sequences st !! b) as [t|] eqn:Ht; [|reflexivity].
      simpl. f_equal.
      pose proof (Slices.ok_len st Hok b t Ht) as Hlt.
      destruct (Slices.cap t) as [|c] eqn:Hc.
      * rewrite !contents_empty by lia. reflexivity.
      * unfold Slices.contents, Slices.array_at.
        rewrite lookup_insert_ne; [reflexivity|].
        apply not_eq_sym. eapply Hsep; eauto. lia.
Qed.

Lemma Subscribe_refines st a :
  Slices.store_ok st ->
  Slices.store_ok (snd (Slices.Subscribe st a)) /\
  Subscribe (Slices.abstract st) a =
  (fst (Slices.Subscribe st a),
   Slices.abstract (snd (Slices.Subscribe st a))).
Proof.
  intros Hok. unfold Slices.Subscribe, Subscribe, subscribed_at.
  change (subscribed (Slices.abstract st)) with (Slices.watched st).
  destruct (default false (Slices.watched st !! a)); [auto|].
  simpl. split.
  - constructor; simpl.
    + apply (Slices.ok_zerobase st Hok).
    + intros b t. destruct (decide (a = b)) as [->|Hne].
      * rewrite lookup_insert_eq. intros [= <-]. simpl. lia.
      * rewrite lookup_insert_ne by assumption. apply (Slices.ok_len st Hok).
    + intros b t. destruct (decide (a = b)) as [->|Hne].
      * rewrite lookup_insert_eq. intros [= <-]. simpl. lia.
      * rewrite lookup_insert_ne by assumption.
        apply (Slices.ok_array st Hok).
    + intros b c t u Hbc.
      destruct (decide (a = b)) as [<-|Hab];
        destruct (decide (a = c)) as [<-|Hac]; try congruence.
      * rewrite lookup_insert_eq. intros [= <-]. simpl. lia.
      * rewrite lookup_insert_ne, lookup_insert_eq by assumption.
        intros _ [= <-]. simpl. lia.
      * rewrite !lookup_insert_ne by assumption.
        now apply (Slices.ok_separate st Hok).
  - f_equal. unfold Slices.abstract. simpl. f_equal.
    now rewrite fmap_insert.
Qed.

(** The copy [GetTransactions] allocates changes nothing the store
    shows. *)
Lemma GetTransactions_keeps st a :
  Slices.store_ok st ->
  Slices.store_ok
    (Slices.with_heap st (fst (Slices.GetTransactions st a))) /\
  Slices.abstract
    (Slices.with_heap st (fst (Slices.GetTransactions st a))) =
  Slices.abstract st.
Proof.
  intros Hok.
  destruct (Slices.GetTransactions st a) as [h1 cp1] eqn:Hget.
  destruct (GetTransactions_fresh st a h1 cp1 Hok Hget)
    as (_ & Hz & _ & _ & Hkeep).
  simpl. split.
  - apply store_ok_with_heap; [assumption|assumption|].
    intros b s arr _ _. apply Hkeep.
  - apply abstract_with_heap; [assumption|]. intros b s arr _ _. apply Hkeep.
Qed.

Lemma SetCurrentBlock_refines st block :
  Slices.store_ok st ->
  Slices.store_ok (Slices.SetCurrentBlock st block) /\
  Slices.abstract (Slices.SetCurrentBlock st block) =
  SetCurrentBlock (Slices.abstract st) block.
Proof.
  intros [Hz Hl Ha Hs]. split; [|reflexivity]. now constructor.
Qed.

Variable growslice : nat -> nat -> nat.

(** The runtime grows a slice to at least the length asked for. *)
Hypothesis growslice_enough : forall c n, (n <= growslice c n)%nat.

Lemma AddTransaction_refines st a tx :
  Slices.store_ok st ->
  Slices.store_ok (Slices.AddTransaction growslice st a tx) /\
  Slices.abstract (Slices.AddTransaction growslice st a tx) =
  AddTransaction (Slices.abstract st) a tx.
Proof.
  intros Hok. unfold Slices.AddTransaction, AddTransaction, subscribed_at.
  change (subscribed (Slices.abstract st)) with (Slices.watched st).
  change (CurrentBlock (Slices.abstract st)) with (Slices.cursor st).
  destruct (default false (Slices.watched st !! a)); [|auto].
  rewrite transactions_at_abstract.
  set (s := default Slices.nil_slice (Slices.sequences st !! a)).
  assert (Hs : (Slices.len s <= Slices.cap s)%nat /\
               length (Slices.contents (Slices.heap st) s) = Slices.len s /\
               match Slices.sequences st !! a with
               | Some s0 => Slices.contents (Slices.heap st) s0
               | None => []
               end = Slices.contents (Slices.heap st) s /\
               ((0 < Slices.cap s)%nat ->
                Slices.sequences st !! a = Some s)).
  { unfold s. destruct (Slices.sequences st !! a) as [s0|] eqn:Hs0; simpl.
    - split; [apply (Slices.ok_len st Hok a s0 Hs0)|].
      split; [now apply (stored_contents_length st a)|]. auto.
    - repeat split; try reflexivity; lia. }
  destruct Hs as (Hlen & Hclen & -> & Hstored).
  clearbody s. unfold Slices.append.
  destruct (Nat.ltb_spec (Slices.len s) (Slices.cap s)) as [Hroom|Hfull].
  - specialize (Hstored ltac:(lia)).
    destruct (Slices.ok_array st Hok a s Hstored ltac:(lia))
      as (arr & Harr & Harrlen).
    apply install_refines; simpl; try assumption; try lia.
    + intros Heq. rewrite Heq, (Slices.ok_zerobase st Hok) in Harr.
      discriminate.
    + unfold Slices.array_at. rewrite Harr. simpl.
      rewrite length_insert. exact Harrlen.
    + intros b t Hne Ht Hc. eapply (Slices.ok_separate st Hok b a); eauto.
      lia.
    + unfold Slices.contents, Slices.array_at. rewrite Harr. simpl.
      rewrite (take_S_r _ _ tx)
        by (apply list_lookup_insert_eq; lia).
      now rewrite take_insert_ge by lia.
  - destruct (Slices.alloc (Slices.heap st)
                (growslice (Slices.cap s) (S (Slices.len s))))
      as [h1 l] eqn:Hal.
    apply alloc_spec in Hal as (Hfresh & Hlz & ->).
    pose proof (growslice_enough (Slices.cap s) (S (Slices.len s))) as Hg.
    rewrite insert_insert_eq.
    replace (Slices.array_at (<[l := _]> (Slices.heap st)) l)
      with (replicate (growslice (Slices.cap s) (S (Slices.len s)))
              Transaction.zero)
      by (unfold Slices.array_at; now rewrite lookup_insert_eq).
    apply install_refines; simpl; try assumption; try lia.
    + rewrite length_app, Hclen. simpl.
      rewrite length_drop, length_replicate. lia.
    + intros b t Hne Ht Hc.
      destruct (Slices.ok_array st Hok b t Ht Hc) as (arr & Harr & _).
      congruence.
    + rewrite cons_middle, app_assoc. apply take_app_length'.
      rewrite length_app, Hclen. simpl. lia.
Qed.

End SliceRefinement.

Lemma doubling_enough c n : (n <= doubling c n)%nat.
Proof. unfold doubling. lia. Qed.

Section SliceRuns.

Variable growslice : nat -> nat -> nat.
Hypothesis growslice_enough : forall c n, (n <= growslice c n)%nat.

Lemma slices_apply_op_refines st o :
  Slices.store_ok st ->
  Slices.store_ok (slices_apply_op growslice st o) /\
  Slices.abstract (slices_apply_op growslice st o) =
  apply_op (Slices.abstract st) o.
Proof.
  intros Hok. destruct o as [a|a|a tx|a|b|]; simpl; auto.
  - destruct (Subscribe_refines st a Hok) as [Hok' Heq].
    split; [assumption|]. now rewrite Heq.
  - now apply AddTransaction_refines.
  - destruct (GetTransactions_keeps st a Hok) as [Hok' Habs]. auto.
  - now apply SetCurrentBlock_refines.
Qed.

(** Every sequence of calls keeps the slice-level store well formed and
    in step with [MemoryStore]. *)
Lemma slices_run_ops_refines ops : forall st,
  Slices.store_ok st ->
  Slices.store_ok (slices_run_ops growslice st ops) /\
  Slices.abstract (slices_run_ops growslice st ops) =
  run_ops (Slices.abstract st) ops.
Proof.
  induction ops as [|o ops IH]; intros st Hok; simpl; [auto|].
  destruct (slices_apply_op_refines st o Hok) as [Hok' Heq].
  destruct (IH _ Hok') as [Hok'' Heq'].
  split; [assumption|]. unfold run_ops in *. simpl. now rewrite <- Heq.
Qed.

End SliceRuns.

(** The caller of [GetTransactions "0x123"] overwrites the first element of
    what it got: its own slice changes, the store does not. *)
Lemma GetTransactions_defensive_copy_witness :
  let st := copy_fixture in
  let h' := fst (Slices.GetTransactions st "0x123") in
  let cp := snd (Slices.GetTransactions st "0x123") in
  Slices.store_ok st /\
  Slices.contents h' cp = GetTransactions (Slices.abstract st) "0x123" /\
  GetTransactions (Slices.abstract st) "0x123" = [tx1; tx3] /\
  Slices.contents (Slices.write h' cp 0 tx2) cp = [tx2; tx3] /\
  Slices.abstract (Slices.with_heap st (Slices.write h' cp 0 tx2)) =
  Slices.abstract st.
Proof.
  intros st h' cp.
  assert (Hok : Slices.store_ok st).
  { exact (proj1 (slices_run_ops_refines doubling doubling_enough _
                    Slices.NewMemoryStore store_ok_new)). }
  destruct (GetTransactions_defensive_copy st "0x123" Hok)
    as (Hc & _ & _ & _ & _ & _ & Hw).
  split; [exact Hok|]. split; [exact Hc|].
  split; [vm_compute; reflexivity|].
  split; [vm_compute; reflexivity|].
  exact (Hw 0%nat tx2).
Defined.
(** ** Hex heights, continued *)

Lemma is_hex_digit_value c :
  is_hex_digit c = true ->
  strconv.digit_value (strconv.byte_of c) = strconv.Digit (hex_digit_value c) /\
  0 <= hex_digit_value c < 16.
Proof.
  destruct c as [[] [] [] [] [] [] [] []]; vm_compute;
    try discriminate; intros _;
    (split; [reflexivity|split; [discriminate|reflexivity]]).
Qed.

Lemma hex_value_from_ge s : forall n,
  0 <= n -> forallb is_hex_digit s = true -> n <= hex_value_from n s.
Proof.
  induction s as [|c s IH]; intros n Hn Hs; [simpl; lia|].
  change (hex_value_from n (c :: s))
    with (hex_value_from (n * 16 + hex_digit_value c) s).
  simpl in Hs. apply andb_prop in Hs as [Hc Hs].
  destruct (is_hex_digit_value c Hc) as [_ Hd].
  specialize (IH (n * 16 + hex_digit_value c) ltac:(lia) Hs). lia.
Qed.

(** The digit loop on hex digits: the number read, or a range error once
    it no longer fits 64 bits. *)
Lemma parse_digits_hex s : forall n,
  0 <= n <= Int64.maxUint64 ->
  forallb is_hex_digit s = true ->
  strconv.parse_digits 16 (Int64.maxUint64 / 16 + 1) (2 ^ 64 - 1) n s =
  if hex_value_from n s <=? Int64.maxUint64
  then (hex_value_from n s, None)
  else (2 ^ 64 - 1, Some ErrRange).
Proof.
  change (Int64.maxUint64 / 16 + 1) with (2 ^ 60).
  unfold Int64.maxUint64.
  induction s as [|c s IH]; intros n Hn Hs.
  - simpl. destruct (Z.leb_spec n (2 ^ 64 - 1)); [reflexivity|lia].
  - apply andb_prop in Hs as [Hc Hs].
    destruct (is_hex_digit_value c Hc) as [Hdv Hd].
    cbn [strconv.parse_digits]. rewrite Hdv.
    destruct (Z.leb_spec 16 (hex_digit_value c)); [lia|].
    change (hex_value_from n (c :: s))
      with (hex_value_from (n * 16 + hex_digit_value c) s).
    pose proof (hex_value_from_ge s (n * 16 + hex_digit_value c)
                  ltac:(lia) Hs) as Hge.
    destruct (Z.leb_spec (2 ^ 60) n) as [Hbig|Hsmall].
    + destruct (Z.leb_spec (hex_value_from (n * 16 + hex_digit_value c) s)
                  (2 ^ 64 - 1)); [lia|reflexivity].
    + unfold Int64.wrap_uint64.
      rewrite (Z.mod_small (n * 16)) by lia.
      rewrite (Z.mod_small (n * 16 + hex_digit_value c)) by lia.
      destruct (Z.ltb_spec (n * 16 + hex_digit_value c) (n * 16)); [lia|].
      destruct (Z.ltb_spec (2 ^ 64 - 1) (n * 16 + hex_digit_value c)); [lia|].
      cbn [orb]. apply IH; [lia|assumption].
Qed.

(** [ParseUint] on a non-empty string of hex digits. *)
Lemma ParseUint_hex c s :
  hex_digits (String c s) = true ->
  strconv.ParseUint (String c s) 16 64 =
  if hex_value (String c s) <=? Int64.maxUint64
  then (hex_value (String c s), None)
  else (2 ^ 64 - 1, Some ErrRange).
Proof.
  intros Hs. unfold strconv.ParseUint.
  change (String.eqb (String c s) EmptyString) with false.
  change ((2 <=? 16) && (16 <=? 36)) with true. cbv iota.
  apply parse_digits_hex; [unfold Int64.maxUint64; lia|exact Hs].
Qed.

Lemma is_hex_digit_not_sign c :
  is_hex_digit c = true ->
  Ascii.eqb c "+" = false /\ Ascii.eqb c "-" = false.
Proof.
  destruct c as [[] [] [] [] [] [] [] []]; vm_compute;
    try discriminate; auto.
Qed.

Lemma ParseInt_hex c s :
  hex_digits (String c s) = true ->
  strconv.ParseInt (String c s) 16 64 =
  if hex_value (String c s) <? 2 ^ 63
  then (hex_value (String c s), None)
  else (2 ^ 63 - 1, Some ErrRange).
Proof.
  intros Hs. unfold strconv.ParseInt.
  assert (Hc : is_hex_digit c = true).
  { unfold hex_digits in Hs. simpl in Hs. now apply andb_prop in Hs as [Hc _]. }
  destruct (is_hex_digit_not_sign c Hc) as [-> ->].
  rewrite (ParseUint_hex c s Hs).
  assert (Hge : 0 <= hex_value (String c s)).
  { apply hex_value_from_ge; [lia|exact Hs]. }
  change (2 ^ (64 - 1)) with (2 ^ 63). unfold Int64.maxUint64.
  destruct (Z.leb_spec (hex_value (String c s)) (2 ^ 64 - 1)); cbn [negb andb].
  - destruct (Z.leb_spec (2 ^ 63) (hex_value (String c s)));
      destruct (Z.ltb_spec (hex_value (String c s)) (2 ^ 63)); try lia;
      reflexivity.
  - cbn [strconv.is_ErrRange negb].
    destruct (Z.ltb_spec (hex_value (String c s)) (2 ^ 63)); [lia|].
    reflexivity.
Qed.

(** X1.  A non-empty string of hex digits, with or without the
    "0x" prefix, parses to the number it denotes when that is below 2^63,
    and to 0 with a range error otherwise. *)
Theorem hexToInt64_hex_value (s : string) :
  hex_digits s = true ->
  s <> EmptyString ->
  hexToInt64 s =
  (if hex_value s <? 2 ^ 63 then (hex_value s, None)
   else (0, Some ErrRange)) /\
  hexToInt64 ("0x" ++ s) = hexToInt64 s.
Proof.
  intros Hs Hne. split; [|now apply hexToInt64_prefix_optional].
  destruct s as [|c s]; [congruence|].
  unfold hexToInt64. rewrite strip_0x_no_prefix.
  - rewrite (ParseInt_hex c s Hs).
    now destruct (hex_value (String c s) <? 2 ^ 63).
  - intros d s' ->. apply is_hex_digit_not_x.
    unfold hex_digits in Hs. simpl in Hs.
    apply andb_prop in Hs as [_ Hs]. now apply andb_prop in Hs as [Hs _].
Qed.

Lemma hexToInt64_hex_value_witness :
  hexToInt64 "1A2b" = (6699, None) /\
  hexToInt64 ("0x" ++ "1A2b") = hexToInt64 "1A2b".
Proof.
  exact (hexToInt64_hex_value "1A2b" eq_refl ltac:(discriminate)).
Defined.

(** A character the digit loop takes as a digit below 16 is a hex digit. *)
Lemma digit_value_hex c d :
  strconv.digit_value (strconv.byte_of c) = strconv.Digit d ->
  d < 16 -> is_hex_digit c = true.
Proof.
  destruct c as [[] [] [] [] [] [] [] []]; vm_compute;
    intros [= <-]; auto; intros [=].
Qed.

Lemma parse_digits_accepts s : forall n v,
  strconv.parse_digits 16 (Int64.maxUint64 / 16 + 1) (2 ^ 64 - 1) n s
  = (v, None) ->
  forallb is_hex_digit s = true.
Proof.
  induction s as [|c s IH]; intros n v; [reflexivity|].
  cbn [strconv.parse_digits forallb].
  destruct (strconv.digit_value (strconv.byte_of c)) as [d|] eqn:Hd;
    [|discriminate].
  destruct (Z.leb_spec 16 d); [discriminate|].
  destruct (_ <=? n); [discriminate|].
  destruct (_ || _); [discriminate|].
  intros Hp. rewrite (digit_value_hex c d Hd) by lia. simpl. eapply IH, Hp.
Qed.

(** A range error of [ParseUint] comes with the largest 64-bit word. *)
Lemma ParseUint_range_value s un :
  strconv.ParseUint s 16 64 = (un, Some ErrRange) -> un = 2 ^ 64 - 1.
Proof.
  unfold strconv.ParseUint. destruct (String.eqb s EmptyString); [discriminate|].
  change ((2 <=? 16) && (16 <=? 36)) with true. cbv iota zeta.
  generalize (Int64.maxUint64 / 16 + 1) as cutoff.
  generalize (list_ascii_of_string s) as l. intros l cutoff.
  assert (Hgen : forall n,
             strconv.parse_digits 16 cutoff (2 ^ 64 - 1) n l
             = (un, Some ErrRange) -> un = 2 ^ 64 - 1); [|apply Hgen].
  induction l as [|c l IH];
    intros n; cbn [strconv.parse_digits]; [discriminate|].
  destruct (strconv.digit_value _) as [d|]; [|discriminate].
  destruct (16 <=? d); [discriminate|].
  destruct (_ <=? n); [now intros [= <-]|].
  destruct (_ || _); [now intros [= <-]|]. apply IH.
Qed.

(** The signed range check after a range error of [ParseUint] fails. *)
Lemma ParseInt_after_range (neg : bool) un val :
  un = 2 ^ 64 - 1 ->
  (if negb neg && (2 ^ (64 - 1) <=? un) then (2 ^ (64 - 1) - 1, Some ErrRange)
   else if neg && (2 ^ (64 - 1) <? un) then (- 2 ^ (64 - 1), Some ErrRange)
   else (if neg then - un else un, None)) = (val, @None error) -> False.
Proof. intros ->. destruct neg; vm_compute; discriminate. Qed.

(** What [ParseUint] accepts is a non-empty string of hex digits, and what it
    returns is the number they denote. *)
Lemma ParseUint_accepts s un :
  strconv.ParseUint s 16 64 = (un, None) ->
  s <> EmptyString /\ hex_digits s = true /\ un = hex_value s /\
  0 <= un <= Int64.maxUint64.
Proof.
  intros Hp. destruct s as [|c s]; [discriminate|].
  assert (Hs : hex_digits (String c s) = true).
  { unfold strconv.ParseUint in Hp.
    change (String.eqb (String c s) EmptyString) with false in Hp.
    change ((2 <=? 16) && (16 <=? 36)) with true in Hp. cbv iota in Hp.
    eapply parse_digits_accepts, Hp. }
  rewrite (ParseUint_hex c s Hs) in Hp.
  pose proof (hex_value_from_ge (list_ascii_of_string (String c s)) 0
                ltac:(lia) Hs) as Hge.
  fold (hex_value (String c s)) in Hge.
  destruct (Z.leb_spec (hex_value (String c s)) Int64.maxUint64);
    [|discriminate].
  injection Hp as <-. repeat split; auto; discriminate.
Qed.

(** X2.  Whatever [hexToInt64] parses without error is, after
    the "0x" prefix, an optional sign followed by at least one hex digit,
    and the value returned is the number the digits denote, negated under a
    minus sign. *)
Theorem hexToInt64_accepts (h : string) (v : Z) :
  hexToInt64 h = (v, None) ->
  exists (sign digits : string),
    strip_0x h = (sign ++ digits)%string /\
    (sign = EmptyString \/ sign = "+" \/ sign = "-") /\
    digits <> EmptyString /\
    hex_digits digits = true /\
    v = (if String.eqb sign "-" then - hex_value digits
         else hex_value digits) /\
    Int64.in_range v.
Proof.
  intros Hh. pose proof (hexToInt64_range h v Hh) as Hr.
  unfold hexToInt64 in Hh.
  destruct (strconv.ParseInt (strip_0x h) 16 64) as [val [e|]] eqn:Hp;
    [discriminate|].
  injection Hh as ->. unfold strconv.ParseInt in Hp.
  destruct (strip_0x h) as [|c0 rest]; [discriminate|].
  destruct (Ascii.eqb_spec c0 "+") as [->|Hplus];
    [|destruct (Ascii.eqb_spec c0 "-") as [->|Hminus]].
  - destruct (strconv.ParseUint rest 16 64) as [un [e|]] eqn:Hu.
    { destruct e; try discriminate. exfalso.
      exact (ParseInt_after_range false un v
               (ParseUint_range_value _ _ Hu) Hp). }
    apply ParseUint_accepts in Hu as (Hne & Hd & -> & Hb).
    exists "+", rest. simpl in Hp.
    destruct (_ <=? _); [discriminate|]. injection Hp as <-.
    repeat split; auto; apply Hr.
  - destruct (strconv.ParseUint rest 16 64) as [un [e|]] eqn:Hu.
    { destruct e; try discriminate. exfalso.
      exact (ParseInt_after_range true un v
               (ParseUint_range_value _ _ Hu) Hp). }
    apply ParseUint_accepts in Hu as (Hne & Hd & -> & Hb).
    exists "-", rest. simpl in Hp.
    destruct (_ <? _); [discriminate|]. injection Hp as <-.
    repeat split; auto; apply Hr.
  - destruct (strconv.ParseUint (String c0 rest) 16 64) as [un [e|]] eqn:Hu.
    { destruct e; try discriminate. exfalso.
      exact (ParseInt_after_range false un v
               (ParseUint_range_value _ _ Hu) Hp). }
    apply ParseUint_accepts in Hu as (Hne & Hd & -> & Hb).
    exists EmptyString, (String c0 rest). simpl in Hp.
    destruct (_ <=? _); [discriminate|]. injection Hp as <-.
    repeat split; auto; apply Hr.
Qed.

Lemma hexToInt64_accepts_witness :
  exists (sign digits : string),
    strip_0x "0x-1f" = (sign ++ digits)%string /\
    (sign = EmptyString \/ sign = "+" \/ sign = "-") /\
    digits <> EmptyString /\
    hex_digits digits = true /\
    -31 = (if String.eqb sign "-" then - hex_value digits
           else hex_value digits) /\
    Int64.in_range (-31).
Proof. exact (hexToInt64_accepts "0x-1f" (-31) eq_refl). Defined.

(** X3.  The upper-case prefix "0X" is not a prefix: every
    string that starts with it is a syntax error, and so is the bare
    "0x". *)
Theorem hexToInt64_upper_prefix (s : string) :
  hexToInt64 ("0X" ++ s) = (0, Some ErrSyntax) /\
  hexToInt64 "0x" = (0, Some ErrSyntax) /\
  hexToInt64 EmptyString = (0, Some ErrSyntax).
Proof.
  split; [|split; reflexivity].
  unfold hexToInt64.
  assert (Hstrip : strip_0x ("0X" ++ s) = ("0X" ++ s)%string).
  { unfold strip_0x. cbn [String.append String.substring String.eqb].
    destruct (2 <? _); reflexivity. }
  rewrite Hstrip. reflexivity.
Qed.

(** ** The block number sent to the node *)

Lemma digit_char_hex d :
  0 <= d < 16 ->
  is_hex_digit (fmt.digit_char d) = true /\
  hex_digit_value (fmt.digit_char d) = d.
Proof.
  intros Hd. rewrite <- (Z2Nat.id d) by lia.
  assert (Hk : (Z.to_nat d < 16)%nat) by lia.
  generalize dependent (Z.to_nat d). clear. intros k Hk.
  do 16 (destruct k as [|k]; [vm_compute; auto|]). lia.
Qed.

Lemma hex_loop_acc fuel : forall u buf,
  fmt.hex_loop fuel u buf = fmt.hex_loop fuel u [] ++ buf.
Proof.
  induction fuel as [|fuel IH]; intros u buf; simpl; [reflexivity|].
  destruct (16 <=? u); [|reflexivity].
  rewrite (IH _ (_ :: buf)), (IH _ [_]). now rewrite <- app_assoc.
Qed.

Lemma hex_loop_step fuel u buf :
  fmt.hex_loop (S fuel) u buf =
  if 16 <=? u
  then fmt.hex_loop fuel (Z.shiftr u 4) (fmt.digit_char (Z.land u 15) :: buf)
  else fmt.digit_char u :: buf.
Proof. reflexivity. Qed.

Lemma hex_value_from_snoc n l c :
  hex_value_from n (l ++ [c]) = hex_value_from n l * 16 + hex_digit_value c.
Proof. unfold hex_value_from. now rewrite fold_left_app. Qed.

(** The digits written for [u] are hex digits, at least one, and denote
    [u]. *)
Lemma hex_loop_digits fuel : forall u,
  0 <= u < 16 ^ Z.of_nat (S fuel) ->
  let ds := fmt.hex_loop (S fuel) u [] in
  ds <> [] /\ forallb is_hex_digit ds = true /\ hex_value_from 0 ds = u.
Proof.
  induction fuel as [|fuel IH]; intros u Hu; cbv zeta;
    rewrite hex_loop_step; destruct (Z.leb_spec 16 u) as [Hbig|Hsmall].
  - change (16 ^ Z.of_nat 1) with 16 in Hu. lia.
  - destruct (digit_char_hex u ltac:(lia)) as [Hh Hv].
    repeat split; [discriminate|simpl; now rewrite Hh|simpl; lia].
  - rewrite hex_loop_acc.
    assert (Hq : 0 <= Z.shiftr u 4 < 16 ^ Z.of_nat (S fuel)).
    { rewrite Z.shiftr_div_pow2 by lia. change (2 ^ 4) with 16.
      rewrite (Nat2Z.inj_succ (S fuel)), Z.pow_succ_r in Hu by lia.
      split; [apply Z.div_pos; lia|].
      apply Z.div_lt_upper_bound; lia. }
    destruct (IH _ Hq) as (Hne & Hall & Hval).
    assert (Hr : 0 <= Z.land u 15 < 16).
    { change 15 with (Z.ones 4). rewrite Z.land_ones by lia.
      apply Z.mod_pos_bound. lia. }
    destruct (digit_char_hex _ Hr) as [Hh Hv].
    split; [|split].
    + intros Happ. apply app_eq_nil in Happ as [_ Happ]. discriminate.
    + rewrite forallb_app, Hall. simpl. now rewrite Hh.
    + rewrite hex_value_from_snoc, Hval, Hv.
      rewrite Z.shiftr_div_pow2 by lia. change (2 ^ 4) with 16.
      change 15 with (Z.ones 4). rewrite Z.land_ones by lia.
      change (2 ^ 4) with 16. pose proof (Z.div_mod u 16 ltac:(lia)). lia.
  - destruct (digit_char_hex u ltac:(lia)) as [Hh Hv].
    repeat split; [discriminate|simpl; now rewrite Hh|simpl; lia].
Qed.

Lemma hex_digits_of_spec u :
  0 <= u <= Int64.maxUint64 ->
  exists c l,
    fmt.hex_digits_of u = c :: l /\
    hex_digits (string_of_list_ascii (c :: l)) = true /\
    hex_value (string_of_list_ascii (c :: l)) = u.
Proof.
  intros Hu. unfold fmt.hex_digits_of.
  destruct (hex_loop_digits 15 u) as (Hne & Hall & Hval).
  { change (16 ^ Z.of_nat 16) with (2 ^ 64).
    unfold Int64.maxUint64 in Hu. lia. }
  destruct (fmt.hex_loop 16 u []) as [|c l]; [congruence|].
  exists c, l. unfold hex_digits, hex_value.
  rewrite list_ascii_of_string_of_list_ascii. auto.
Qed.

Lemma hexBlockNum_roundtrip_helper (blockNum : Z) :
  Int64.in_range blockNum ->
  hexToInt64 (hexBlockNum blockNum) = (blockNum, None).
Proof.
  unfold Int64.in_range, Int64.min_int64, Int64.max_int64. intros Hr.
  unfold hexBlockNum, fmt.Sprintf_x, hexToInt64.
  destruct (Z.ltb_spec blockNum 0) as [Hneg|Hpos].
  - assert (Hu : Int64.wrap_uint64 (- blockNum) = - blockNum).
    { unfold Int64.wrap_uint64. apply Z.mod_small. lia. }
    rewrite Hu.
    destruct (hex_digits_of_spec (- blockNum)) as (c & l & -> & Hd & Hv).
    { unfold Int64.maxUint64. lia. }
    change (string_of_list_ascii ("-"%char :: c :: l))
      with (String "-" (string_of_list_ascii (c :: l))).
    rewrite strip_0x_prefixed. unfold strconv.ParseInt.
    change (Ascii.eqb "-" "+") with false.
    change (Ascii.eqb "-" "-") with true. cbv iota.
    change (string_of_list_ascii (c :: l))
      with (String c (string_of_list_ascii l)) in *.
    rewrite (ParseUint_hex _ _ Hd), Hv.
    unfold Int64.maxUint64.
    destruct (Z.leb_spec (- blockNum) (2 ^ 64 - 1)); [|lia].
    cbn [negb andb]. change (2 ^ (64 - 1)) with (2 ^ 63).
    destruct (Z.ltb_spec (2 ^ 63) (- blockNum)); [lia|].
    f_equal. lia.
  - assert (Hu : Int64.wrap_uint64 blockNum = blockNum).
    { unfold Int64.wrap_uint64. apply Z.mod_small. lia. }
    rewrite Hu.
    destruct (hex_digits_of_spec blockNum) as (c & l & -> & Hd & Hv).
    { unfold Int64.maxUint64. lia. }
    change (string_of_list_ascii (c :: l))
      with (String c (string_of_list_ascii l)) in *.
    rewrite strip_0x_prefixed, (ParseInt_hex _ _ Hd), Hv.
    destruct (Z.ltb_spec blockNum (2 ^ 63)); [reflexivity|lia].
Qed.

(** X4.  The block number as [GetBlockByNumber] writes it into its
    request, ["0x%x"], is read back by [hexToInt64] as the same number, for
    every [int64] (a negative one is written with a minus sign after the
    prefix). *)
Theorem hexBlockNum_roundtrip (blockNum : Z) :
  Int64.in_range blockNum ->
  hexToInt64 (hexBlockNum blockNum) = (blockNum, None).
Proof. apply hexBlockNum_roundtrip_helper. Qed.

Lemma hexBlockNum_roundtrip_witness :
  Int64.in_range 4660 /\
  hexBlockNum 4660 = "0x1234" /\
  hexToInt64 (hexBlockNum 4660) = (4660, None).
Proof.
  assert (Hr : Int64.in_range 4660) by (vm_compute; split; discriminate).
  split; [exact Hr|]. split; [reflexivity|].
  exact (hexBlockNum_roundtrip 4660 Hr).
Defined.

(** ** Ingestion, continued *)

Lemma recorded_for_matching m a tx :
  recorded_for m a tx = if subscribed_at m a then matching a [tx] else [].
Proof.
  unfold recorded_for, matching. simpl. rewrite app_nil_r.
  destruct (String.eqb_spec (Transaction.From tx) a) as [->|_];
    destruct (String.eqb_spec (Transaction.To tx) a) as [->|_];
    rewrite ?andb_false_r; destruct (subscribed_at m a); reflexivity.
Qed.

Lemma flat_map_recorded_for m a txs :
  flat_map (recorded_for m a) txs =
  if subscribed_at m a then matching a txs else [].
Proof.
  induction txs as [|tx txs IH]; simpl.
  - now destruct (subscribed_at m a).
  - rewrite IH, recorded_for_matching. unfold matching. simpl.
    rewrite app_nil_r. now destruct (subscribed_at m a).
Qed.

Lemma matching_complete a tx txs :
  In tx txs -> Transaction.From tx = a \/ Transaction.To tx = a ->
  In tx (matching a txs).
Proof.
  intros Hin Hparty. unfold matching. apply in_flat_map. exists tx.
  split; [assumption|]. apply in_or_app.
  destruct Hparty as [<-|<-]; rewrite String.eqb_refl; simpl; auto.
Qed.

Section IngestionFacts.

Context {C : Type} `{JSONRPCClient C}.

(** X5.  A step asks the node for its height first and then, only
    when that answer parses to a height above the cursor [c], for block
    [c + 1] and no other; it makes no further call.  The cursor moves only
    onto a block fetched without error in that same step. *)
Theorem processNextBlock_protocol (p : EthParser C) :
  Int64.in_range (GetCurrentBlock (store p)) ->
  let c := GetCurrentBlock (store p) in
  let r := processNextBlock p in
  let c' := GetCurrentBlock (store (step_parser r)) in
  let tip := snd (BlockNumber (client p)) in
  (step_calls r = [CallBlockNumber tip] \/
   exists answer,
     step_calls r = [CallBlockNumber tip; CallGetBlockByNumber (c + 1) answer] /\
     exists hex h, tip = (hex, None) /\ hexToInt64 hex = (h, None) /\ c < h) /\
  (forall hex h, tip = (hex, None) -> hexToInt64 hex = (h, None) -> c < h ->
     exists answer,
       step_calls r =
       [CallBlockNumber tip; CallGetBlockByNumber (c + 1) answer]) /\
  (c' <> c ->
   exists blockData,
     step_calls r =
     [CallBlockNumber tip; CallGetBlockByNumber c' (blockData, None)]).
Proof.
  intros Hc. cbv zeta. step_cases p; cbn [snd app].
  all: try pose proof (hexToInt64_range _ _ Hh) as Hr.
  4, 5: rewrite wrap_int64_id
    by (unfold GetCurrentBlock, Int64.in_range, Int64.min_int64,
          Int64.max_int64 in *; lia).
  all: unfold GetCurrentBlock, SetCurrentBlock in *; cbn [CurrentBlock].
  all: split; [|split].
  all: try (left; reflexivity).
  all: try (intros Hne; exfalso; apply Hne; reflexivity).
  all: try (intros hex' h' Hx Hy Hlt; try discriminate Hx;
            injection Hx as <-; rewrite Hh in Hy; try discriminate Hy;
            injection Hy as <-; try lia; eauto).
  all: try (right; eexists; split; [reflexivity|eauto]).
  intros _. eauto.
Qed.

End IngestionFacts.

Lemma processNextBlock_protocol_witness :
  Int64.in_range (GetCurrentBlock (store fixture_start)) /\
  exists blockData,
    step_calls (processNextBlock fixture_start) =
    [CallBlockNumber ("0x3", None);
     CallGetBlockByNumber 1 (blockData, None)].
Proof.
  assert (Hc : Int64.in_range (GetCurrentBlock (store fixture_start))).
  { vm_compute. split; discriminate. }
  split; [exact Hc|].
  destruct (proj2 (proj2 (processNextBlock_protocol fixture_start Hc)))
    as [blockData Hcalls]; [vm_compute; discriminate|].
  exists blockData. rewrite Hcalls. reflexivity.
Defined.

Section IngestionRuns.

Context {C : Type} `{JSONRPCClient C}.

Lemma processNextBlock_subscribed (p : EthParser C) :
  subscribed (store (step_parser (processNextBlock p))) = subscribed (store p).
Proof.
  destruct (processNextBlock_store p) as [->|(_ & blockData & ->)];
    [reflexivity|].
  apply storeTransactions_subscribed.
Qed.

(** A step only appends to the sequences. *)
Lemma processNextBlock_appends (p : EthParser C) a :
  exists added,
    transactions_at (store (step_parser (processNextBlock p))) a =
    transactions_at (store p) a ++ added.
Proof.
  destruct (processNextBlock_store p) as [->|(_ & blockData & ->)].
  - exists []. now rewrite app_nil_r.
  - eexists. apply storeTransactions_at.
Qed.

(** The lists after a step that fetched [blockData] without error. *)
Lemma processNextBlock_fetched (p : EthParser C) (A : string) n blockData :
  In (CallGetBlockByNumber n (blockData, None))
     (step_calls (processNextBlock p)) ->
  GetTransactions (store (step_parser (processNextBlock p))) A =
  GetTransactions (store p) A ++
  (if IsSubscribed (store p) A
   then matching A (parseTransactions blockData) else []).
Proof.
  step_cases p; simpl; intros Hin.
  1, 2, 3: intuition discriminate.
  - destruct Hin as [Hin|[Hin|[]]]; discriminate.
  - destruct Hin as [Hin|[Hin|[]]]; [discriminate|].
    injection Hin as _ <-. rewrite !GetTransactions_at.
    change (transactions_at (SetCurrentBlock ?m ?b) A)
      with (transactions_at m A).
    now rewrite storeTransactions_at, flat_map_recorded_for.
Qed.

(** X6.  No step changes the subscriptions.  A step that fetched a
    block without error leaves, for a subscribed address [A], the list it
    had followed by the block's transactions sent from [A] or to [A], in
    block order (one sent from [A] to [A] twice); for any other address it
    leaves the list as it was.  So no transaction of the block that
    involves a subscribed address is missed. *)
Theorem processNextBlock_records (p : EthParser C) (A : string) :
  let r := processNextBlock p in
  let m' := store (step_parser r) in
  subscribed m' = subscribed (store p) /\
  forall n blockData,
    In (CallGetBlockByNumber n (blockData, None)) (step_calls r) ->
    GetTransactions m' A =
    GetTransactions (store p) A ++
    (if IsSubscribed (store p) A
     then matching A (parseTransactions blockData) else []) /\
    (forall tx, In tx (parseTransactions blockData) ->
                IsSubscribed (store p) A = true ->
                Transaction.From tx = A \/ Transaction.To tx = A ->
                In tx (GetTransactions m' A)).
Proof.
  cbv zeta. split; [apply processNextBlock_subscribed|].
  intros n blockData Hin.
  pose proof (processNextBlock_fetched p A n blockData Hin) as Heq.
  split; [exact Heq|].
  intros tx Htx Hsub Hparty. rewrite Heq, Hsub.
  apply in_or_app. right. now apply matching_complete.
Qed.

(** X7.  A call of [StartParsing] that returns after [n] iterations
    leaves the cursor between where it was and [n] above, the subscriptions
    as they were, and every address's list with what it had as a prefix. *)
Theorem StartParsing_run (p p' : EthParser C) (n : nat) :
  Int64.in_range (GetCurrentBlock (store p)) ->
  StartParsing p (Some n) = Some p' ->
  GetCurrentBlock (store p) <= GetCurrentBlock (store p')
    <= GetCurrentBlock (store p) + Z.of_nat n /\
  Int64.in_range (GetCurrentBlock (store p')) /\
  subscribed (store p') = subscribed (store p) /\
  forall A, exists added,
    GetTransactions (store p') A = GetTransactions (store p) A ++ added.
Proof.
  intros Hc Hstart.
  assert (Hloop : forall k (q : EthParser C),
             Int64.in_range (GetCurrentBlock (store q)) ->
             Int64.in_range (GetCurrentBlock (store (parser_loop k q))) /\
             subscribed (store (parser_loop k q)) = subscribed (store q) /\
             forall A, exists added,
               transactions_at (store (parser_loop k q)) A =
               transactions_at (store q) A ++ added).
  { induction k as [|k IH]; intros q Hq; simpl.
    - repeat split; [apply Hq..|]. intros A. exists []. now rewrite app_nil_r.
    - destruct (processNextBlock_step q Hq) as [_ Hq'].
      destruct (IH _ Hq') as (Hr & Hs & Ha).
      split; [exact Hr|]. split.
      + now rewrite Hs, processNextBlock_subscribed.
      + intros A. destruct (Ha A) as [added2 ->].
        destruct (processNextBlock_appends q A) as [added1 ->].
        exists (added1 ++ added2). now rewrite app_assoc. }
  unfold StartParsing in Hstart. destruct (parseRunning p).
  - injection Hstart as <-. repeat split; try apply Hc; try lia.
    intros A. exists []. now rewrite app_nil_r.
  - injection Hstart as <-.
    set (q := mkParser (client p) (store p) true) in *.
    pose proof (parser_loop_cursor n q Hc) as Hcur.
    destruct (Hloop n q Hc) as (Hr & Hs & Ha).
    split; [exact Hcur|]. split; [exact Hr|]. split; [exact Hs|].
    intros A. rewrite !GetTransactions_at. apply Ha.
Qed.

(** X8.  After a step that returned an error, the next step, whatever
    the node answers then, fetches no block other than the one the failed
    step was after. *)
Theorem processNextBlock_retry (p : EthParser C) (n : Z)
  (answer : BlockResponse.t * option error) :
  Int64.in_range (GetCurrentBlock (store p)) ->
  step_err (processNextBlock p) <> None ->
  In (CallGetBlockByNumber n answer)
     (step_calls (processNextBlock (step_parser (processNextBlock p)))) ->
  n = GetCurrentBlock (store p) + 1.
Proof.
  intros Hc Herr Hin.
  assert (Hs : store (step_parser (processNextBlock p)) = store p).
  { destruct (processNextBlock_store p) as [Hs|(Hok & _)]; congruence. }
  apply processNextBlock_calls in Hin as [-> _]; rewrite Hs; auto.
Qed.

Section Steady.

(** The client states met while the node keeps reporting the height [hex]
    and serves every block. *)
Variable steady : C -> Prop.
Variable hex : string.
Variable h : Z.

Hypothesis steady_BlockNumber : forall cl,
  steady cl ->
  snd (BlockNumber cl) = (hex, None) /\ steady (fst (BlockNumber cl)).

Hypothesis steady_GetBlockByNumber : forall cl n,
  steady cl ->
  snd (snd (GetBlockByNumber cl n)) = None /\
  steady (fst (GetBlockByNumber cl n)).

Hypothesis hex_height : hexToInt64 hex = (h, None).

Lemma steady_step (p : EthParser C) :
  Int64.in_range (GetCurrentBlock (store p)) ->
  steady (client p) ->
  steady (client (step_parser (processNextBlock p))) /\
  GetCurrentBlock (store (step_parser (processNextBlock p))) =
  if GetCurrentBlock (store p) <? h
  then GetCurrentBlock (store p) + 1 else GetCurrentBlock (store p).
Proof.
  intros Hc Hst.
  destruct (steady_BlockNumber _ Hst) as [Hbn1 Hst1].
  pose proof (hexToInt64_range _ _ hex_height) as Hr.
  unfold processNextBlock.
  destruct (BlockNumber (client p)) as [c1 [hex' e]]. simpl in Hbn1, Hst1.
  injection Hbn1 as -> ->. rewrite hex_height.
  destruct (Z.leb_spec h (GetCurrentBlock (store p)));
    destruct (Z.ltb_spec (GetCurrentBlock (store p)) h); try lia.
  - simpl. auto.
  - destruct (steady_GetBlockByNumber c1
                (Int64.wrap_int64 (GetCurrentBlock (store p) + 1)) Hst1)
      as [Hgb Hst2].
    destruct (GetBlockByNumber c1 _) as [c2 [blockData e]].
    simpl in Hgb, Hst2. subst e. simpl. split; [exact Hst2|].
    apply wrap_int64_id.
    unfold GetCurrentBlock, Int64.in_range, Int64.min_int64,
      Int64.max_int64 in *. lia.
Qed.

(** X9.  Against a node that keeps reporting height [h] and serves
    every block, [n] iterations take a cursor [c] below [h] to [c + n], but
    not beyond [h]; a cursor at or above [h] stays. *)
Theorem parser_loop_catches_up (n : nat) (p : EthParser C) :
  Int64.in_range (GetCurrentBlock (store p)) ->
  steady (client p) ->
  GetCurrentBlock (store (parser_loop n p)) =
  Z.max (GetCurrentBlock (store p))
        (Z.min (GetCurrentBlock (store p) + Z.of_nat n) h).
Proof.
  revert p. induction n as [|n IH]; intros p Hc Hst.
  - simpl. lia.
  - cbn [parser_loop].
    destruct (steady_step p Hc Hst) as [Hst' Hcur].
    destruct (processNextBlock_step p Hc) as [_ Hc'].
    rewrite (IH _ Hc' Hst'), Hcur.
    destruct (Z.ltb_spec (GetCurrentBlock (store p)) h); lia.
Qed.

End Steady.

End IngestionRuns.

Lemma processNextBlock_retry_witness :
  let p := snd (Parser_Subscribe (NewEthParser timing_out NewMemoryStore)
                  "0x123") in
  In (CallGetBlockByNumber 1 (BlockResponse.zero, Some (ErrClient "timeout")))
     (step_calls (processNextBlock (step_parser (processNextBlock p)))) /\
  1 = GetCurrentBlock (store p) + 1.
Proof.
  intros p.
  assert (Hin : In (CallGetBlockByNumber 1
                      (BlockResponse.zero, Some (ErrClient "timeout")))
                   (step_calls
                      (processNextBlock (step_parser (processNextBlock p))))).
  { vm_compute. right. left. reflexivity. }
  split; [exact Hin|].
  refine (processNextBlock_retry p 1 _ _ _ Hin).
  - vm_compute. split; discriminate.
  - vm_compute. discriminate.
Defined.

Lemma StartParsing_run_witness :
  Int64.in_range (GetCurrentBlock (store fixture_start)) /\
  StartParsing fixture_start (Some 2%nat) =
  Some (parser_loop 2 (mkParser mc (store fixture_start) true)) /\
  GetCurrentBlock (store fixture_start)
  <= GetCurrentBlock
       (store (parser_loop 2 (mkParser mc (store fixture_start) true)))
  <= GetCurrentBlock (store fixture_start) + 2.
Proof.
  assert (Hc : Int64.in_range (GetCurrentBlock (store fixture_start))).
  { vm_compute. split; discriminate. }
  split; [exact Hc|]. split; [reflexivity|].
  exact (proj1 (StartParsing_run fixture_start _ 2 Hc eq_refl)).
Defined.

Lemma parser_loop_catches_up_witness :
  GetCurrentBlock (store (parser_loop 5 fixture_start)) = 3.
Proof.
  assert (Hc : Int64.in_range (GetCurrentBlock (store fixture_start))).
  { vm_compute. split; discriminate. }
  assert (H1 : forall cl : mockClient, cl = mc ->
             snd (BlockNumber cl) = ("0x3", None) /\
             fst (BlockNumber cl) = mc).
  { intros cl ->. split; reflexivity. }
  assert (H2 : forall (cl : mockClient) n, cl = mc ->
             snd (snd (GetBlockByNumber cl n)) = None /\
             fst (GetBlockByNumber cl n) = mc).
  { intros cl n ->. split; reflexivity. }
  rewrite (parser_loop_catches_up (fun cl => cl = mc) "0x3" 3 H1 H2
             eq_refl 5 fixture_start Hc eq_refl).
  reflexivity.
Defined.

Lemma processNextBlock_records_witness :
  GetTransactions (store (step_parser (processNextBlock fixture_start)))
    "0x123" =
  GetTransactions (store fixture_start) "0x123" ++
  (if IsSubscribed (store fixture_start) "0x123"
   then matching "0x123"
          (parseTransactions (default BlockResponse.zero (blocks mc !! 1)))
   else []).
Proof.
  refine (proj1 (proj2 (processNextBlock_records fixture_start "0x123")
                   1 (default BlockResponse.zero (blocks mc !! 1)) _)).
  vm_compute. right. left. reflexivity.
Defined.

(** ** The store, continued *)

Lemma AddTransaction_subscribed_sequences m a tx :
  subscribed_sequences m -> subscribed_sequences (AddTransaction m a tx).
Proof.
  intros Hm b. unfold AddTransaction.
  destruct (subscribed_at m a) eqn:Ha; [|apply Hm].
  unfold subscribed_at. simpl. intros Hb.
  destruct (decide (a = b)) as [->|Hne].
  - rewrite lookup_insert_eq. eauto.
  - rewrite lookup_insert_ne by assumption. now apply Hm.
Qed.

Lemma Subscribe_subscribed_sequences m a :
  subscribed_sequences m -> subscribed_sequences (snd (Subscribe m a)).
Proof.
  intros Hm b. unfold Subscribe.
  destruct (subscribed_at m a) eqn:Ha; [apply Hm|].
  unfold subscribed_at. simpl.
  destruct (decide (a = b)) as [->|Hne].
  - rewrite !lookup_insert_eq. eauto.
  - rewrite !lookup_insert_ne by assumption. apply Hm.
Qed.

Lemma apply_op_subscribed_sequences m o :
  subscribed_sequences m -> subscribed_sequences (apply_op m o).
Proof.
  intros Hm. destruct o; simpl; try exact Hm.
  - now apply Subscribe_subscribed_sequences.
  - now apply AddTransaction_subscribed_sequences.
Qed.

Lemma run_ops_subscribed_sequences ops : forall m,
  subscribed_sequences m -> subscribed_sequences (run_ops m ops).
Proof.
  induction ops as [|o ops IH]; intros m Hm; simpl; [exact Hm|].
  apply IH, apply_op_subscribed_sequences, Hm.
Qed.

(** X10.  After any calls on a new store, an address has a
    transaction sequence exactly when it is subscribed; an address that is
    not subscribed lists no transactions. *)
Theorem sequences_iff_subscribed (ops : list store_op) (a : string) :
  let m := run_ops NewMemoryStore ops in
  (IsSubscribed m a = true <-> is_Some (transactions m !! a)) /\
  (IsSubscribed m a = false -> GetTransactions m a = []).
Proof.
  cbv zeta. unfold IsSubscribed.
  pose proof (run_ops_sequences_subscribed ops NewMemoryStore
                NewMemoryStore_sequences_subscribed a) as Hno.
  assert (Hyes : subscribed_sequences (run_ops NewMemoryStore ops)).
  { apply run_ops_subscribed_sequences. intros b. unfold subscribed_at.
    simpl. rewrite lookup_empty. discriminate. }
  split; [split|].
  - apply Hyes.
  - intros [txs Htxs].
    destruct (subscribed_at (run_ops NewMemoryStore ops) a); [reflexivity|].
    rewrite Hno in Htxs by reflexivity. discriminate.
  - intros Hf. unfold GetTransactions. now rewrite (Hno Hf).
Qed.

(** X11.  Calls about different addresses do not see each other: two
    subscriptions, two recordings, and a subscription and a recording, of
    different addresses, leave the same store in either order. *)
Theorem store_calls_commute (m : MemoryStore) (a b : string)
  (x y : Transaction.t) :
  a <> b ->
  snd (Subscribe (snd (Subscribe m a)) b) =
  snd (Subscribe (snd (Subscribe m b)) a) /\
  AddTransaction (AddTransaction m a x) b y =
  AddTransaction (AddTransaction m b y) a x /\
  AddTransaction (snd (Subscribe m a)) b y =
  snd (Subscribe (AddTransaction m b y) a) /\
  fst (Subscribe (snd (Subscribe m a)) b) = fst (Subscribe m b) /\
  fst (Subscribe (AddTransaction m b y) a) = fst (Subscribe m a).
Proof.
  intros Hne.
  unfold Subscribe, AddTransaction, subscribed_at, transactions_at.
  destruct (default false (subscribed m !! a)) eqn:Ha;
    destruct (default false (subscribed m !! b)) eqn:Hb;
    cbn [fst snd subscribed transactions CurrentBlock];
    rewrite ?lookup_insert_ne by congruence;
    rewrite ?Ha, ?Hb;
    cbn [fst snd subscribed transactions CurrentBlock];
    rewrite ?lookup_insert_ne by congruence;
    rewrite ?Ha, ?Hb;
    cbn [fst snd subscribed transactions CurrentBlock];
    repeat split; try reflexivity;
    f_equal; apply insert_insert_ne; congruence.
Qed.

Lemma store_calls_commute_witness :
  let m := snd (Subscribe NewMemoryStore "0xA") in
  AddTransaction (snd (Subscribe m "0xB")) "0xA" tx1 =
  snd (Subscribe (AddTransaction m "0xA" tx1) "0xB").
Proof.
  intros m.
  exact (proj1 (proj2 (proj2 (store_calls_commute m "0xB" "0xA" tx1 tx1
                                 ltac:(discriminate))))).
Defined.

(** X12.  With Go's slices written out (append in place while the
    capacity lasts, into a new array otherwise, for any growth of capacity
    that makes room), every sequence of calls on a new store keeps each
    stored slice in an array of its own and shows exactly the store that the
    list-level operations compute. *)
Theorem slices_refine_lists (growslice : nat -> nat -> nat)
  (ops : list store_op) :
  (forall c n, (n <= growslice c n)%nat) ->
  Slices.store_ok (slices_run_ops growslice Slices.NewMemoryStore ops) /\
  Slices.abstract (slices_run_ops growslice Slices.NewMemoryStore ops) =
  run_ops NewMemoryStore ops.
Proof.
  intros Hg.
  destruct (slices_run_ops_refines growslice Hg ops Slices.NewMemoryStore
              store_ok_new) as [Hok Habs].
  split; [exact Hok|]. now rewrite Habs, abstract_new.
Qed.

Lemma slices_refine_lists_witness :
  Slices.abstract copy_fixture =
  run_ops NewMemoryStore
    [OpSubscribe "0x123"; OpAddTransaction "0x123" tx1;
     OpAddTransaction "0x123" tx3].
Proof.
  exact (proj2 (slices_refine_lists doubling
                  [OpSubscribe "0x123"; OpAddTransaction "0x123" tx1;
                   OpAddTransaction "0x123" tx3] doubling_enough)).
Defined.

(** ** The HTTP adapter *)

Section HandlerFacts.

Context {C : Type} `{JSONRPCClient C} `{http.Codec}.

(** X13.  [handleSubscribe] answers 200, 400 or 405, and 200
    exactly for a POST whose body decodes to a non-empty address.  A
    request it rejects leaves the parser as it was (no subscription is
    made).  One it accepts subscribes the address and reports whether the
    address was new; for an address already subscribed it changes
    nothing. *)
Theorem handleSubscribe_contract (p : EthParser C) (r : http.Request) :
  let p' := fst (http.handleSubscribe p r) in
  let resp := snd (http.handleSubscribe p r) in
  (http.StatusCode resp = 200 \/ http.StatusCode resp = 400 \/
   http.StatusCode resp = 405) /\
  (http.StatusCode resp = 200 <->
   http.Method r = "POST" /\
   exists address, http.Decode_subReq (http.Body r) = (address, None) /\
                   address <> EmptyString) /\
  (http.StatusCode resp <> 200 -> p' = p) /\
  (forall address,
      http.Method r = "POST" ->
      http.Decode_subReq (http.Body r) = (address, None) ->
      address <> EmptyString ->
      http.ResponseBody resp =
      http.JSON (http.MapBool
                   {["subscribed" := negb (IsSubscribed (store p) address)]}) /\
      http.ContentType resp = "application/json" /\
      IsSubscribed (store p') address = true /\
      (IsSubscribed (store p) address = true -> p' = p) /\
      client p' = client p /\ parseRunning p' = parseRunning p).
Proof.
  cbv zeta. unfold http.handleSubscribe.
  destruct (String.eqb_spec (http.Method r) http.MethodPost) as [Hm|Hm];
    cbn [negb];
    [destruct (http.Decode_subReq (http.Body r)) as [address [e|]];
     [|destruct (String.eqb_spec address EmptyString) as [He|He]]|].
  4: { cbn [fst snd http.Error http.StatusCode].
       unfold http.StatusMethodNotAllowed, http.MethodPost in *.
       split; [auto|]. split; [split; [discriminate|tauto]|].
       split; [reflexivity|]. intros a Hx. contradiction. }
  1, 2: cbn [fst snd http.Error http.StatusCode];
    unfold http.StatusBadRequest;
    (split; [auto|]); (split; [split; [discriminate|]|]);
    [intros (_ & a & Hx & Ha); congruence
    |split; [reflexivity|intros a _ Hx Ha; congruence]].
  unfold Parser_Subscribe, Subscribe, IsSubscribed.
  destruct p as [cl m run]. cbn [store client parseRunning].
  destruct (subscribed_at m address) eqn:Hsub;
    cbn [fst snd http.writeJSON http.StatusCode http.ResponseBody
           http.ContentType store client parseRunning negb];
    unfold http.StatusOK, http.MethodPost in *.
  all: split; [auto|]; split; [split; [eauto|reflexivity]|].
  all: split; [congruence|].
  all: intros a _ [= <-] _; rewrite ?Hsub; cbn [negb].
  all: repeat split; try reflexivity; try assumption; try discriminate.
  unfold subscribed_at. simpl. now rewrite lookup_insert_eq.
Qed.

(** X14.  [handleGetTransactions] answers 405 to anything
    but a GET, 400 to a GET whose query has no [address] parameter or an
    empty first value for it, and otherwise 200 with the list stored for
    the first [address] value; it answers nothing else. *)
Theorem handleGetTransactions_contract (p : EthParser C) (r : http.Request) :
  let resp := http.handleGetTransactions p r in
  let values := default [] (http.URL_Query (http.RawQuery r) !! "address") in
  (http.Method r <> "GET" <-> http.StatusCode resp = 405) /\
  (http.Method r = "GET" /\ (values = [] \/ exists more, values = EmptyString :: more)
   <-> http.StatusCode resp = 400) /\
  (forall address more,
      http.Method r = "GET" -> values = address :: more ->
      address <> EmptyString ->
      resp = http.writeJSON 200
               (http.Transactions (GetTransactions (store p) address))) /\
  (http.StatusCode resp = 200 \/ http.StatusCode resp = 400 \/
   http.StatusCode resp = 405).
Proof.
  cbv zeta. unfold http.handleGetTransactions, http.Values_Get.
  destruct (String.eqb_spec (http.Method r) http.MethodGet) as [Hm|Hm];
    cbn [negb]; unfold http.MethodGet in Hm.
  2: { cbn [http.Error http.StatusCode]. unfold http.StatusMethodNotAllowed.
       split; [tauto|]. split; [split; [tauto|discriminate]|].
       split; [intros; contradiction|auto]. }
  destruct (default [] (http.URL_Query (http.RawQuery r) !! "address"))
    as [|v more].
  - cbn [String.eqb http.Error http.StatusCode].
    unfold http.StatusBadRequest.
    split; [split; [contradiction|discriminate]|].
    split; [split; auto|]. split; [discriminate|auto].
  - destruct (String.eqb_spec v EmptyString) as [->|Hv];
      cbn [http.Error http.writeJSON http.StatusCode];
      unfold http.StatusBadRequest, http.StatusOK.
    + split; [split; [contradiction|discriminate]|].
      split; [split; eauto|]. split; [|auto].
      intros a m _ [= <- _] Ha. congruence.
    + split; [split; [contradiction|discriminate]|].
      split; [split; [|discriminate]|].
      { intros (_ & [Hx|(m & Hx)]); [discriminate|]. congruence. }
      split; [|auto]. intros a m _ [= <- _] _. reflexivity.
Qed.

(** X15.  An address subscribed over HTTP that was not subscribed
    before lists no transactions at first.  After a step that fetched a
    block without error it lists exactly the block's transactions sent from
    it or to it, in block order. *)
Theorem subscribe_then_list (p : EthParser C) (rs rq : http.Request)
  (A : string) (more : list string) :
  http.Method rs = "POST" ->
  http.Decode_subReq (http.Body rs) = (A, None) ->
  A <> EmptyString ->
  IsSubscribed (store p) A = false ->
  http.Method rq = "GET" ->
  http.URL_Query (http.RawQuery rq) !! "address" = Some (A :: more) ->
  let p1 := fst (http.handleSubscribe p rs) in
  http.handleGetTransactions p1 rq =
  http.writeJSON 200 (http.Transactions []) /\
  forall n blockData,
    In (CallGetBlockByNumber n (blockData, None))
       (step_calls (processNextBlock p1)) ->
    http.handleGetTransactions (step_parser (processNextBlock p1)) rq =
    http.writeJSON 200
      (http.Transactions (matching A (parseTransactions blockData))).
Proof.
  intros Hms Hdec HA Hsub Hmq Hq p1.
  assert (Hget : forall q : EthParser C,
             http.handleGetTransactions q rq =
             http.writeJSON 200
               (http.Transactions (GetTransactions (store q) A))).
  { intros q. unfold http.handleGetTransactions, http.Values_Get.
    rewrite Hmq, Hq.
    change (String.eqb "GET" http.MethodGet) with true.
    cbn [negb from_option id].
    destruct (String.eqb_spec A EmptyString); [contradiction|reflexivity]. }
  assert (Hp1 : store p1 = snd (Subscribe (store p) A)).
  { unfold p1, http.handleSubscribe. rewrite Hms, Hdec.
    change (String.eqb "POST" http.MethodPost) with true. cbn [negb].
    destruct (String.eqb_spec A EmptyString); [contradiction|].
    unfold Parser_Subscribe. now destruct (Subscribe (store p) A). }
  unfold IsSubscribed in Hsub.
  assert (Hseq : GetTransactions (store p1) A = [] /\
                 IsSubscribed (store p1) A = true).
  { rewrite Hp1, GetTransactions_at. unfold Subscribe, IsSubscribed.
    rewrite Hsub. unfold transactions_at, subscribed_at. simpl.
    now rewrite !lookup_insert_eq. }
  destruct Hseq as [Hnil Hyes]. split.
  - now rewrite Hget, Hnil.
  - intros n blockData Hin.
    rewrite Hget, (processNextBlock_fetched p1 A n blockData Hin).
    now rewrite Hnil, Hyes.
Qed.

End HandlerFacts.

Lemma handleSubscribe_contract_witness :
  let p := NewEthParser mc NewMemoryStore in
  let r := http.mkRequest "POST" EmptyString "0x123" in
  http.StatusCode (snd (http.handleSubscribe p r)) = 200 /\
  http.ResponseBody (snd (http.handleSubscribe p r)) =
  http.JSON (http.MapBool
               {["subscribed" := negb (IsSubscribed (store p) "0x123")]}).
Proof.
  intros p r. split.
  - apply (proj2 (proj1 (proj2 (handleSubscribe_contract p r)))).
    split; [reflexivity|]. exists "0x123". split; [reflexivity|discriminate].
  - apply (proj2 (proj2 (proj2 (handleSubscribe_contract p r))) "0x123");
      [reflexivity|reflexivity|discriminate].
Defined.

Lemma handleGetTransactions_contract_witness :
  let r := http.mkRequest "GET" "0x123" EmptyString in
  http.handleGetTransactions (fixture_after 3) r =
  http.writeJSON 200
    (http.Transactions (GetTransactions (store (fixture_after 3)) "0x123")).
Proof.
  intros r.
  apply (proj1 (proj2 (proj2 (handleGetTransactions_contract
                                (fixture_after 3) r))) "0x123" []);
    [reflexivity|reflexivity|discriminate].
Defined.

Lemma subscribe_then_list_witness :
  let p := NewEthParser mc NewMemoryStore in
  let rs := http.mkRequest "POST" EmptyString "0x123" in
  let rq := http.mkRequest "GET" "0x123" EmptyString in
  let p1 := fst (http.handleSubscribe p rs) in
  http.handleGetTransactions p1 rq =
  http.writeJSON 200 (http.Transactions []) /\
  http.handleGetTransactions (step_parser (processNextBlock p1)) rq =
  http.writeJSON 200
    (http.Transactions
       (matching "0x123"
          (parseTransactions (default BlockResponse.zero (blocks mc !! 1))))).
Proof.
  intros p rs rq p1.
  destruct (@subscribe_then_list _ _ stubCodec p rs rq "0x123" []
              eq_refl eq_refl ltac:(discriminate) eq_refl eq_refl eq_refl)
    as [H1 H2].
  split; [exact H1|]. apply (H2 1). vm_compute. right. left. reflexivity.
Defined.

(** ** The production client *)

Section ClientFacts.

Context `{rpc.Env}.

(** What [doRequest] returns without error is the body of a response with
    a status from 200 to 299, to the one request it sent. *)
Lemma doRequest_ok (r : rpc.RPCClient) (data : rpc.rpcRequest) bytes :
  snd (rpc.doRequest r data) = (bytes, None) <->
  exists payload status,
    rpc.json_Marshal data = (payload, None) /\
    rpc.http_NewRequest "POST" (rpc.endpoint r) payload = None /\
    rpc.network (rpc.sent r) (rpc.endpoint r) payload =
    rpc.Responded status (bytes, None) /\
    200 <= status < 300.
Proof.
  unfold rpc.doRequest.
  destruct (rpc.json_Marshal data) as [payload [e|]] eqn:Hm; cbn [snd].
  { split; [discriminate|]. intros (pl & st & Hx & _). discriminate. }
  destruct (rpc.http_NewRequest "POST" (rpc.endpoint r) payload) as [e|]
    eqn:Hn; cbn [snd].
  { split; [discriminate|].
    intros (pl & st & [= <-] & Hx & _). congruence. }
  destruct (rpc.network (rpc.sent r) (rpc.endpoint r) payload)
    as [e|status [body [e|]]] eqn:Hnet; cbn [snd].
  - split; [discriminate|].
    intros (pl & st & [= <-] & _ & Hx & _). congruence.
  - destruct (Z.ltb_spec status 200); destruct (Z.leb_spec 300 status);
      cbn [orb snd]; (split; [discriminate|]);
      intros (pl & st & [= <-] & _ & Hx & Hst); rewrite Hnet in Hx;
      injection Hx as <-; try discriminate; lia.
  - destruct (Z.ltb_spec status 200); destruct (Z.leb_spec 300 status);
      cbn [orb snd].
    1, 2, 3: split; [discriminate|];
      intros (pl & st & [= <-] & _ & Hx & Hst); rewrite Hnet in Hx;
      injection Hx as <- _; lia.
    split.
    + intros [= <-]. exists payload, status. repeat split; auto; lia.
    + intros (pl & st & [= <-] & _ & Hx & Hst). rewrite Hnet in Hx.
      now injection Hx as <- <-.
Qed.

(** [doRequest] sends at most one request and returns no bytes with an
    error. *)
Lemma doRequest_effect (r : rpc.RPCClient) (data : rpc.rpcRequest) :
  rpc.endpoint (fst (rpc.doRequest r data)) = rpc.endpoint r /\
  (rpc.sent (fst (rpc.doRequest r data)) = rpc.sent r \/
   rpc.sent (fst (rpc.doRequest r data)) = S (rpc.sent r)) /\
  (snd (snd (rpc.doRequest r data)) <> None ->
   fst (snd (rpc.doRequest r data)) = EmptyString).
Proof.
  unfold rpc.doRequest.
  destruct (rpc.json_Marshal data) as [payload [e|]]; [simpl; auto|].
  destruct (rpc.http_NewRequest _ _ _) as [e|]; [simpl; auto|].
  destruct (rpc.network _ _ _) as [e|status [body [e|]]]; [simpl; auto|..];
    destruct ((status <? 200) || (300 <=? status)); simpl; auto.
  repeat split; auto. congruence.
Qed.



End ClientFacts.

Section ClientSteps.

Context `{rpc.Env}.

Lemma doRequest_bad_status (r : rpc.RPCClient) (data : rpc.rpcRequest)
  payload status read :
  rpc.json_Marshal data = (payload, None) ->
  rpc.http_NewRequest "POST" (rpc.endpoint r) payload = None ->
  rpc.network (rpc.sent r) (rpc.endpoint r) payload =
  rpc.Responded status read ->
  status < 200 \/ 300 <= status ->
  rpc.doRequest r data =
  (rpc.mkClient (rpc.endpoint r) (S (rpc.sent r)),
   (EmptyString, Some (ErrClient "unexpected status code"))).
Proof.
  intros Hm Hn Hnet Hst. unfold rpc.doRequest. rewrite Hm, Hn, Hnet.
  destruct read as [bytes rerr].
  destruct (Z.ltb_spec status 200); destruct (Z.leb_spec 300 status);
    try reflexivity; lia.
Qed.


End ClientSteps.



